(** * Rocket Ride: the round outcome engine

    A shallow embedding of the round engine ([src/game/Game.ts]), of the
    constants of [src/game/state.ts] and of the entropy source
    ([src/game/RNG.ts]).

    Numbers.  A JavaScript [number] that carries money, time or a multiplier
    is embedded as a real number: [Math.exp], [Math.log] and [Math.min] are
    [exp], [ln] and [Rmin], and the rounding of binary64 arithmetic is not
    part of the model; the arithmetic of the crash multiplier, which needs
    no [exp], is run in binary64 as well at the draws where its value
    crosses 1 and the cap ([Binary64]).  The numbers of the entropy source,
    which come out of [parseInt], are embedded with their non-finite values
    ([NaN], [Infinity]) spelled out.

    Effects.  The engine mutates the fields of one [Game] object and calls
    into the UI; a method is embedded as a function [Game -> Game], and the
    calls it makes on [this.ui] are pushed on a log kept in the object.  The
    [async] method [startRound] is cut at its [await]: [startRound] is the
    part that runs synchronously, [startRound_resume] the continuation that
    runs once the crash multiplier has been delivered. *)

From Stdlib Require Import Reals Lra Lia ZArith Bool List String Ascii.
From Stdlib Require Import Permutation.
From Stdlib Require Import Floats.PrimFloat Numbers.Cyclic.Int63.Uint63.
Import ListNotations.

Open Scope R_scope.

(** ** Constants ([state.ts]) *)

Inductive GameState : Set :=
| IDLE
| FETCHING_RNG
| RUNNING
| CASHED_OUT
| CRASHED.

Definition GameState_eqb (a b : GameState) : bool :=
  match a, b with
  | IDLE, IDLE | FETCHING_RNG, FETCHING_RNG | RUNNING, RUNNING
  | CASHED_OUT, CASHED_OUT | CRASHED, CRASHED => true
  | _, _ => false
  end.

Definition COST_TO_PLAY : R := 10.
Definition START_BALANCE : R := 100.
Definition MAX_MULTIPLIER : R := 25.
Definition HOUSE_EDGE : R := 0.06.
Definition TARGET_MULTIPLIER : R := 3.4.
Definition TARGET_TIME : R := 20.
Definition GROWTH_K : R := ln TARGET_MULTIPLIER / TARGET_TIME.

(** ** The calls the engine makes on the UI

    Only their order and arguments matter here.  The strings that the source
    formats with [toFixed] are kept as the numbers they are formatted
    from. *)

Inductive Highlight : Set := big | jackpot.

Record HistoryEntry : Type := mkEntry {
  value : R;
  highlight : option Highlight
}.

Module UI.

Inductive tone : Set := win | loss.
Inductive banner : Set := cashout | crash.

Inductive call : Type :=
| clearBanner
| clearMegaWin
| showTooltip (text : string)
| setState (s : GameState)
| setBalance (b : R)
| setMultiplier (m : R)
| setPotential (p : R)
| setLastResult (amount : R) (t : tone)
| showBanner (multiplier : R) (b : banner)
| animateReturn (from to : R) (ms : Z)
| showMegaWin (h : Highlight) (multiplier : R)
| setHistory (h : list HistoryEntry).

(** The calls that announce the outcome of a round: [cashOut] and [crash]
    each make exactly one [setLastResult] call, and nothing else does. *)
Definition is_settlement (c : call) : bool :=
  match c with
  | setLastResult _ _ => true
  | _ => false
  end.

Definition settlements (log : list call) : list call :=
  filter is_settlement log.

End UI.

(** ** The engine object ([Game.ts])

    The fields below are the ones the round logic reads or writes.  The
    rendering fields of the class (layers, particles, stars, camera, the
    [elapsed] and [flightIntensity] accumulators, [lastTickStep] for the tick
    sound) are written by the same methods but never read by the round
    logic, and are left out together with the audio calls. *)

Record Game : Type := mkGame {
  state : GameState;
  balance : R;
  currentMultiplier : R;
  crashMultiplier : R;
  roundTime : R;
  endTimer : R;
  cashoutLocked : bool;
  crashLocked : bool;
  history : list HistoryEntry;
  ui : list UI.call       (* calls made on [this.ui], latest first *)
}.

Definition set_state (v : GameState) (g : Game) : Game :=
  mkGame v (balance g) (currentMultiplier g) (crashMultiplier g) (roundTime g)
         (endTimer g) (cashoutLocked g) (crashLocked g) (history g) (ui g).

Definition set_balance (v : R) (g : Game) : Game :=
  mkGame (state g) v (currentMultiplier g) (crashMultiplier g) (roundTime g)
         (endTimer g) (cashoutLocked g) (crashLocked g) (history g) (ui g).

Definition set_currentMultiplier (v : R) (g : Game) : Game :=
  mkGame (state g) (balance g) v (crashMultiplier g) (roundTime g)
         (endTimer g) (cashoutLocked g) (crashLocked g) (history g) (ui g).

Definition set_crashMultiplier (v : R) (g : Game) : Game :=
  mkGame (state g) (balance g) (currentMultiplier g) v (roundTime g)
         (endTimer g) (cashoutLocked g) (crashLocked g) (history g) (ui g).

Definition set_roundTime (v : R) (g : Game) : Game :=
  mkGame (state g) (balance g) (currentMultiplier g) (crashMultiplier g) v
         (endTimer g) (cashoutLocked g) (crashLocked g) (history g) (ui g).

Definition set_endTimer (v : R) (g : Game) : Game :=
  mkGame (state g) (balance g) (currentMultiplier g) (crashMultiplier g)
         (roundTime g) v (cashoutLocked g) (crashLocked g) (history g) (ui g).

Definition set_cashoutLocked (v : bool) (g : Game) : Game :=
  mkGame (state g) (balance g) (currentMultiplier g) (crashMultiplier g)
         (roundTime g) (endTimer g) v (crashLocked g) (history g) (ui g).

Definition set_crashLocked (v : bool) (g : Game) : Game :=
  mkGame (state g) (balance g) (currentMultiplier g) (crashMultiplier g)
         (roundTime g) (endTimer g) (cashoutLocked g) v (history g) (ui g).

Definition set_history (v : list HistoryEntry) (g : Game) : Game :=
  mkGame (state g) (balance g) (currentMultiplier g) (crashMultiplier g)
         (roundTime g) (endTimer g) (cashoutLocked g) (crashLocked g) v (ui g).

(** [this.ui.<c>(...)]: one more call on the log. *)
Definition tell (c : UI.call) (g : Game) : Game :=
  mkGame (state g) (balance g) (currentMultiplier g) (crashMultiplier g)
         (roundTime g) (endTimer g) (cashoutLocked g) (crashLocked g)
         (history g) (c :: ui g).

(** The object as the constructor leaves it. *)
Definition new_Game : Game :=
  let g := mkGame IDLE START_BALANCE 1 MAX_MULTIPLIER 0 0 false false [] [] in
  let g := tell (UI.setBalance (balance g)) g in
  let g := tell (UI.setPotential COST_TO_PLAY) g in
  let g := tell (UI.setState (state g)) g in
  tell (UI.setHistory (history g)) g.

(** [history.unshift(entry)], then the array is cut to its first 12 items. *)
Definition recordHistory (v : R) (h : option Highlight) (g : Game) : Game :=
  let entry := mkEntry (Rmin MAX_MULTIPLIER v) h in
  let g := set_history (firstn 12 (entry :: history g)) g in
  tell (UI.setHistory (history g)) g.

Definition resetRound (g : Game) : Game :=
  let g := set_state IDLE g in
  let g := set_currentMultiplier 1 g in
  let g := set_roundTime 0 g in
  let g := set_endTimer 0 g in
  let g := set_crashMultiplier MAX_MULTIPLIER g in
  let g := set_cashoutLocked false g in
  let g := set_crashLocked false g in
  let g := tell (UI.setState (state g)) g in
  let g := tell (UI.setMultiplier (currentMultiplier g)) g in
  tell (UI.setPotential COST_TO_PLAY) g.

(** The synchronous part of [startRound], up to
    [await this.rng.getCrashMultiplier()]. *)
Definition startRound (g : Game) : Game :=
  if negb (GameState_eqb (state g) IDLE) then g
  else
    let g := tell UI.clearBanner g in
    let g := tell UI.clearMegaWin g in
    if Rlt_dec (balance g) COST_TO_PLAY then
      tell (UI.showTooltip "Balance too low to play.") g
    else
      let g := set_state FETCHING_RNG g in
      let g := tell (UI.setState (state g)) g in
      let g := set_balance (balance g - COST_TO_PLAY) g in
      let g := tell (UI.setBalance (balance g)) g in
      let g := set_roundTime 0 g in
      let g := set_currentMultiplier 1 g in
      let g := set_crashMultiplier MAX_MULTIPLIER g in
      let g := set_cashoutLocked false g in
      let g := set_crashLocked false g in
      let g := tell (UI.setMultiplier (currentMultiplier g)) g in
      tell (UI.setPotential COST_TO_PLAY) g.

(** The continuation of [startRound]: [crash] is the value the awaited
    [getCrashMultiplier()] resolved to; the wait that pads the fetch to
    600 ms only delays this continuation. *)
Definition startRound_resume (crash : R) (g : Game) : Game :=
  if negb (GameState_eqb (state g) FETCHING_RNG) then g
  else
    let g := set_crashMultiplier crash g in
    let g := set_state RUNNING g in
    tell (UI.setState (state g)) g.

Definition cashOut (g : Game) : Game :=
  if negb (GameState_eqb (state g) RUNNING) || cashoutLocked g then g
  else
    let g := set_cashoutLocked true g in
    let payout := COST_TO_PLAY * currentMultiplier g in
    let g := set_balance (balance g + payout) g in
    let g := set_state CASHED_OUT g in
    let g := set_endTimer 1.6 g in
    let g := tell (UI.setState (state g)) g in
    let g := tell (UI.setBalance (balance g)) g in
    let g := tell (UI.setLastResult payout UI.win) g in
    let g := tell (UI.showBanner (currentMultiplier g) UI.cashout) g in
    let g := tell (UI.animateReturn COST_TO_PLAY payout 900) g in
    if Rge_dec (currentMultiplier g) (MAX_MULTIPLIER - 0.01) then
      let g := tell (UI.showMegaWin jackpot (currentMultiplier g)) g in
      recordHistory (crashMultiplier g) (Some jackpot) g
    else if Rge_dec (currentMultiplier g) 10 then
      let g := tell (UI.showMegaWin big (currentMultiplier g)) g in
      recordHistory (crashMultiplier g) (Some big) g
    else
      recordHistory (crashMultiplier g) None g.

Definition crash (g : Game) : Game :=
  if negb (GameState_eqb (state g) RUNNING) || crashLocked g then g
  else
    let g := set_crashLocked true g in
    let g := set_state CRASHED g in
    let g := set_endTimer 1.6 g in
    let g := tell (UI.setState (state g)) g in
    let g := tell (UI.setLastResult COST_TO_PLAY UI.loss) g in
    let g := tell (UI.showBanner (currentMultiplier g) UI.crash) g in
    let g := tell (UI.animateReturn (COST_TO_PLAY * currentMultiplier g) 0 700) g in
    recordHistory (crashMultiplier g) None g.

(** The two blocks of [update] that belong to the round. *)
Definition update (dt : R) (g : Game) : Game :=
  let g :=
    if GameState_eqb (state g) RUNNING then
      let g := set_roundTime (roundTime g + dt) g in
      let g := set_currentMultiplier
                 (Rmin MAX_MULTIPLIER (exp (GROWTH_K * roundTime g))) g in
      let g := tell (UI.setMultiplier (currentMultiplier g)) g in
      let g := tell (UI.setPotential (COST_TO_PLAY * currentMultiplier g)) g in
      if Rge_dec (currentMultiplier g) (crashMultiplier g) then crash g else g
    else g in
  if GameState_eqb (state g) CASHED_OUT || GameState_eqb (state g) CRASHED then
    let g := set_endTimer (endTimer g - dt) g in
    if Rle_dec (endTimer g) 0 then resetRound g else g
  else g.

(** ** The engine as a transition system

    What can happen to the object between two turns of the event loop: the
    play button ([onPlay]), the delivery of the awaited crash multiplier,
    the cash-out button or the space key ([onCashOut]), and one tick of the
    renderer ([update]). *)

Inductive event : Type :=
| Play
| Fetched (crash : R)
| CashOut
| Frame (dt : R).

Definition step (g : Game) (e : event) : Game :=
  match e with
  | Play => startRound g
  | Fetched c => startRound_resume c g
  | CashOut => cashOut g
  | Frame dt => update dt g
  end.

Definition run (g : Game) (es : list event) : Game := fold_left step es g.

Inductive reachable : Game -> Prop :=
| reachable_new : reachable new_Game
| reachable_step g e : reachable g -> reachable (step g e).

Definition is_Play (e : event) : bool :=
  match e with Play => true | _ => false end.

(** A round is settled in [CASHED_OUT] and in [CRASHED]. *)
Definition settled (g : Game) : bool :=
  GameState_eqb (state g) CASHED_OUT || GameState_eqb (state g) CRASHED.

(** The round fields of the object, without the UI log. *)
Definition round_fields (g : Game) :=
  (state g, balance g, currentMultiplier g, crashMultiplier g, roundTime g,
   endTimer g, cashoutLocked g, crashLocked g, history g).

(** ** Numbers of the entropy source

    [parseInt] returns [NaN], an infinity (the digits denote an integer
    beyond the binary64 range) or an integral number. *)

Inductive number : Type :=
| NaN
| Infinity (negative : bool)
| Int (z : Z).

Module JS.

Definition isFinite (n : number) : bool :=
  match n with Int _ => true | _ => false end.

Definition isNaN (n : number) : bool :=
  match n with NaN => true | _ => false end.

(** [Math.round] fixes [NaN], the infinities and every integral number. *)
Definition round (n : number) : number := n.

(** [n < k], [n > k] and [n % k] for an integer constant [k]. *)
Definition ltb (n : number) (k : Z) : bool :=
  match n with
  | NaN => false
  | Infinity negative => negative
  | Int z => (z <? k)%Z
  end.

Definition gtb (n : number) (k : Z) : bool :=
  match n with
  | NaN => false
  | Infinity negative => negb negative
  | Int z => (z >? k)%Z
  end.

Definition rem (n : number) (k : Z) : number :=
  match n with
  | Int z => if (k =? 0)%Z then NaN else Int (Z.rem z k)
  | _ => NaN
  end.

End JS.

(** The built-ins of the platform that [RNG.ts] calls on strings.  [atob]
    answers [None] where the built-in throws. *)
Class Platform : Type := {
  atob : string -> option string;
  trim : string -> string;
  parseInt : string -> Z -> number
}.

(** ** The entropy source ([RNG.ts]) *)

Definition MAX_UINT16 : Z := 65535.

Inductive OutshiftEncoding : Set := base64 | raw.

(** A field that is absent, [undefined] or [null] is [None]. *)
Record RandomNumberField : Type := mkField {
  binary : option string;
  octal : option string;
  decimal : option string;
  hexadecimal : option string
}.

Record RandomNumberResp : Type := mkResp {
  encoding : option OutshiftEncoding;
  random_numbers : option (list RandomNumberField)
}.

(** What [fetch] delivers: a response with its [ok] flag and the outcome of
    [response.json()] ([None]: the body does not parse and the promise
    rejects, or it parses to a value such as [null] on which reading
    [random_numbers] throws; either way control reaches the [catch]). *)
Record Response : Type := mkResponse {
  ok : bool;
  json : option RandomNumberResp
}.

(** One call of [getUint16] sees this much of the outside world: the build
    flag, the outcome of [fetch] ([None]: the promise rejects) and the item
    that [crypto.getRandomValues] writes into the [Uint16Array]. *)
Record World : Type := mkWorld {
  SHOULD_USE_QRNG : bool;
  fetch : option Response;
  getRandomValues : Z
}.

Record RNG : Type := mkRNG { isQuantum : bool }.

(** Evaluation of a [try] block: a value, or an exception on its way to the
    [catch]. *)
Inductive completion (A : Type) : Type :=
| normal (a : A)
| thrown.
Arguments normal {A} a.
Arguments thrown {A}.

Definition bind {A B : Type} (c : completion A) (k : A -> completion B)
  : completion B :=
  match c with
  | normal a => k a
  | thrown => thrown
  end.

(** [await p] on a promise that may reject, and a value that must not be
    [null]. *)
Definition await {A : Type} (p : option A) : completion A :=
  match p with
  | Some a => normal a
  | None => thrown
  end.

Notation "x <- c ;; k" := (bind c (fun x => k))
  (at level 61, c at next level, right associativity).

Definition clampUint16 (value : number) : number :=
  let rounded := JS.round value in
  if JS.isNaN rounded then Int 0
  else if JS.ltb rounded 0 then Int 0
  else if JS.gtb rounded MAX_UINT16 then JS.rem rounded (MAX_UINT16 + 1)
  else rounded.

Section EntropySource.

Context {platform : Platform}.

Definition decodeValue (value : option string) (encoding : OutshiftEncoding)
  : option string :=
  match value with
  | None => None
  | Some EmptyString => None
  | Some value =>
      match encoding with
      | raw => Some (trim value)
      | base64 =>
          match atob value with
          | Some decoded => Some (trim decoded)
          | None => None
          end
      end
  end.

(** One of the four blocks of [readOutshiftNumber]: a decoded field that
    parses to a finite number is returned, anything else falls through to
    [otherwise]. *)
Definition parsed_or (decoded : option string) (radix : Z)
           (otherwise : option number) : option number :=
  match decoded with
  | Some text =>
      let parsed := parseInt text radix in
      if JS.isFinite parsed then Some parsed else otherwise
  | None => otherwise
  end.

Definition readOutshiftNumber (payload : RandomNumberResp) : option number :=
  match
    match random_numbers payload with
    | Some l => nth_error l 0
    | None => None
    end
  with
  | None => None
  | Some entry =>
      let encoding :=
        match encoding payload with Some e => e | None => base64 end in
      parsed_or (decodeValue (decimal entry) encoding) 10
        (parsed_or (decodeValue (hexadecimal entry) encoding) 16
           (parsed_or (decodeValue (binary entry) encoding) 2
              (parsed_or (decodeValue (octal entry) encoding) 8
                 None)))
  end.

(** The body of the [try] block of [getUint16]. *)
Definition remote_draw (w : World) : completion number :=
  response <- await (fetch w) ;;
  if negb (ok response) then thrown
  else
    data <- await (json response) ;;
    value <- await (readOutshiftNumber data) ;;
    normal value.

Definition getUint16 (w : World) (this : RNG) : number * RNG :=
  if negb (SHOULD_USE_QRNG w) then
    (Int (getRandomValues w), mkRNG false)
  else
    match remote_draw w with
    | normal value => (clampUint16 value, mkRNG true)
    | thrown => (Int (getRandomValues w), mkRNG false)
    end.

(** The arithmetic of [getCrashMultiplier] is over the reals, for a draw
    [r] that is an integral number; [getUint16] returns no other. *)
Definition getCrashMultiplier (w : World) (this : RNG) : option R * RNG :=
  let (r, this) := getUint16 w this in
  match r with
  | Int r =>
      let u := (IZR r + 1) / 65536 in
      (Some (Rmin MAX_MULTIPLIER ((1 - HOUSE_EDGE) / u)), this)
  | _ => (None, this)
  end.

End EntropySource.

(** ** A reference platform

    The three built-ins over strings of Latin-1 code units, after ECMAScript
    ([String.prototype.trim], [parseInt]) and the HTML standard ([atob]).
    The results about the entropy source hold for every [Platform]; this one
    lets the functions run on concrete responses. *)

Module Browser.

Open Scope Z_scope.

Definition code (c : ascii) : Z := Z.of_N (N_of_ascii c).

(** White space of ECMAScript below code 256: TAB, LF, VT, FF, CR, SP and
    NBSP. *)
Definition is_space (c : ascii) : bool :=
  let n := code c in
  ((9 <=? n) && (n <=? 13)) || (n =? 32) || (n =? 160).

Fixpoint trimStart (s : string) : string :=
  match s with
  | String c rest => if is_space c then trimStart rest else s
  | EmptyString => EmptyString
  end.

Fixpoint trimEnd (s : string) : string :=
  match s with
  | EmptyString => EmptyString
  | String c rest =>
      match trimEnd rest with
      | EmptyString => if is_space c then EmptyString else String c EmptyString
      | kept => String c kept
      end
  end.

Definition trim (s : string) : string := trimEnd (trimStart s).

(** *** [atob]: forgiving base64 decoding *)

Definition sextet (c : ascii) : option Z :=
  let n := code c in
  if (65 <=? n) && (n <=? 90) then Some (n - 65)
  else if (97 <=? n) && (n <=? 122) then Some (n - 71)
  else if (48 <=? n) && (n <=? 57) then Some (n + 4)
  else if n =? 43 then Some 62
  else if n =? 47 then Some 63
  else None.

(** ASCII white space of the HTML standard: TAB, LF, FF, CR and SP. *)
Definition is_ascii_space (c : ascii) : bool :=
  let n := code c in
  (n =? 9) || (n =? 10) || (n =? 12) || (n =? 13) || (n =? 32).

Fixpoint chars (s : string) : list ascii :=
  match s with
  | EmptyString => []
  | String c rest => c :: chars rest
  end.

Fixpoint text (l : list ascii) : string :=
  match l with
  | [] => EmptyString
  | c :: rest => String c (text rest)
  end.

Definition is_pad (c : ascii) : bool := code c =? 61.

(** One or two [=] at the end of a text whose length is a multiple of 4
    are dropped. *)
Definition strip_padding (l : list ascii) : list ascii :=
  if Z.of_nat (List.length l) mod 4 =? 0 then
    match rev l with
    | a :: b :: rest =>
        if is_pad a then
          if is_pad b then rev rest else rev (b :: rest)
        else l
    | _ => l
    end
  else l.

Fixpoint sextets (l : list ascii) : option (list Z) :=
  match l with
  | [] => Some []
  | c :: rest =>
      match sextet c, sextets rest with
      | Some v, Some vs => Some (v :: vs)
      | _, _ => None
      end
  end.

Definition byte (n : Z) : ascii := ascii_of_N (Z.to_N (n mod 256)).

Fixpoint octets (l : list Z) : list ascii :=
  match l with
  | a :: b :: c :: d :: rest =>
      let n := a * 262144 + b * 4096 + c * 64 + d in
      byte (n / 65536) :: byte (n / 256) :: byte n :: octets rest
  | [a; b; c] =>
      let n := a * 4096 + b * 64 + c in
      [byte (n / 1024); byte (n / 4)]
  | [a; b] => [byte ((a * 64 + b) / 16)]
  | _ => []
  end.

Definition atob (s : string) : option string :=
  let data := strip_padding (filter (fun c => negb (is_ascii_space c)) (chars s)) in
  if Z.of_nat (List.length data) mod 4 =? 1 then None
  else
    match sextets data with
    | Some vs => Some (text (octets vs))
    | None => None
    end.

(** *** [parseInt] *)

Definition digit (c : ascii) : option Z :=
  let n := code c in
  if (48 <=? n) && (n <=? 57) then Some (n - 48)
  else if (97 <=? n) && (n <=? 122) then Some (n - 87)
  else if (65 <=? n) && (n <=? 90) then Some (n - 55)
  else None.

(** The value of the longest prefix of [s] made of digits of the radix, on
    top of the digits already read. *)
Fixpoint digits (radix : Z) (s : string) (read : option Z) : option Z :=
  match s with
  | EmptyString => read
  | String c rest =>
      match digit c with
      | Some d =>
          if d <? radix then
            digits radix rest
                   (Some (match read with Some v => v * radix | None => 0 end + d))
          else read
      | None => read
      end
  end.

(** The binary64 number nearest to a natural number (ties to even), or
    [None] when that is an infinity. *)
Definition nearest_binary64 (n : Z) : option Z :=
  if n <? 2 ^ 53 then Some n
  else
    let e := Z.log2 n - 52 in
    let q := n / 2 ^ e in
    let r := n mod 2 ^ e in
    let half := 2 ^ (e - 1) in
    let q := if (half <? r) || ((r =? half) && Z.odd q) then q + 1 else q in
    if q * 2 ^ e <? 2 ^ 1024 then Some (q * 2 ^ e) else None.

Definition strip_hex_prefix (s : string) : string :=
  match s with
  | String "0" (String "x" rest) => rest
  | String "0" (String "X" rest) => rest
  | _ => s
  end.

Definition parseInt (s : string) (radix : Z) : number :=
  let s := trimStart s in
  let '(negative, s) :=
    match s with
    | String "-" rest => (true, rest)
    | String "+" rest => (false, rest)
    | _ => (false, s)
    end in
  if (radix <? 2) || (36 <? radix) then NaN
  else
    let s := if radix =? 16 then strip_hex_prefix s else s in
    match digits radix s None with
    | None => NaN
    | Some n =>
        match nearest_binary64 n with
        | Some v => Int (if negative then - v else v)
        | None => Infinity negative
        end
    end.

#[export] Instance platform : Platform := Build_Platform atob trim parseInt.

End Browser.

(** ** The crash multiplier in binary64

    The three lines of arithmetic of [getCrashMultiplier] on the primitive
    binary64 numbers, for a draw given as an integer. *)

Module Binary64.

Definition Math_min (a b : float) : float :=
  if PrimFloat.is_nan a || PrimFloat.is_nan b then PrimFloat.nan
  else if PrimFloat.ltb b a then b else a.

Definition MAX_MULTIPLIER : float := 25%float.
Definition HOUSE_EDGE : float := 0.06%float.

Definition getCrashMultiplier (r : Z) : float :=
  let r := PrimFloat.of_uint63 (Uint63.of_Z r) in
  let u := PrimFloat.div (PrimFloat.add r 1%float) 65536%float in
  Math_min MAX_MULTIPLIER
           (PrimFloat.div (PrimFloat.sub 1%float HOUSE_EDGE) u).

End Binary64.

(** ** Notions used to state the properties *)

(** The curve that [update] evaluates at [roundTime]. *)
Definition multiplierAt (t : R) : R := Rmin MAX_MULTIPLIER (exp (GROWTH_K * t)).

Fixpoint total (dts : list R) : R :=
  match dts with
  | [] => 0
  | dt :: rest => dt + total rest
  end.

(** The renderer never reports a negative frame time. *)
Definition forward (e : event) : Prop :=
  match e with
  | Frame dt => 0 <= dt
  | _ => True
  end.

(** No new round is started by the events [es]. *)
Definition same_round (es : list event) : Prop :=
  Forall (fun e => is_Play e = false) es.

(** A round that has just been started with crash multiplier [c], from a
    fresh object. *)
Definition launched (c : R) : Game := run new_Game [Play; Fetched c].

Section EntropySourceSpec.

Context {platform : Platform}.

(** The ways the remote path of [getUint16] fails. *)
Inductive remote_failure (w : World) : Prop :=
| fetch_rejected :
    fetch w = None -> remote_failure w
| bad_status response :
    fetch w = Some response -> ok response = false -> remote_failure w
| body_unparsable response :
    fetch w = Some response -> json response = None -> remote_failure w
| no_field response data :
    fetch w = Some response -> json response = Some data ->
    readOutshiftNumber data = None -> remote_failure w.

(** The remote path succeeds with [value]. *)
Definition remote_success (w : World) (value : number) : Prop :=
  exists response data,
    fetch w = Some response /\ ok response = true /\
    json response = Some data /\ readOutshiftNumber data = Some value.

(** *** Response parsing, following the words of the specification *)

(** Envelope decoding: base64 is decoded then trimmed, raw is trimmed. *)
Definition envelope_decode (e : OutshiftEncoding) (s : string)
  : option string :=
  match e with
  | base64 => option_map trim (atob s)
  | raw => Some (trim s)
  end.

(** What one radix field contributes: the field is present and not empty,
    its envelope decodes, and the text parses to a finite number in the
    radix. *)
Definition field_number (e : OutshiftEncoding) (field : option string)
           (radix : Z) : option number :=
  match field with
  | None | Some EmptyString => None
  | Some s =>
      match envelope_decode e s with
      | Some t =>
          if JS.isFinite (parseInt t radix) then Some (parseInt t radix)
          else None
      | None => None
      end
  end.

(** The four radix fields in their priority order. *)
Definition priority (entry : RandomNumberField) : list (option string * Z) :=
  [(decimal entry, 10%Z); (hexadecimal entry, 16%Z);
   (binary entry, 2%Z); (octal entry, 8%Z)].

Fixpoint first_some {A : Type} (l : list (option A)) : option A :=
  match l with
  | [] => None
  | Some a :: _ => Some a
  | None :: rest => first_some rest
  end.

Definition first_record (payload : RandomNumberResp)
  : option RandomNumberField :=
  match random_numbers payload with
  | Some (entry :: _) => Some entry
  | _ => None
  end.

Definition spec_readOutshiftNumber (payload : RandomNumberResp)
  : option number :=
  match first_record payload with
  | None => None
  | Some entry =>
      let e := match encoding payload with Some e => e | None => base64 end in
      first_some
        (map (fun '(field, radix) => field_number e field radix)
             (priority entry))
  end.

End EntropySourceSpec.

(** Sample worlds and responses. *)

(** The service is unreachable and the local generator draws [r]. *)
Definition offline (r : Z) : World := mkWorld true None r.

(** The service answers with the given record, base64-encoded. *)
Definition answering (entry : RandomNumberField) (r : Z) : World :=
  mkWorld true
          (Some (mkResponse true (Some (mkResp (Some base64) (Some [entry])))))
          r.

(** The state of a running round after the first block of [update], before
    the crash test. *)
Definition advanced (dt : R) (g : Game) : Game :=
  mkGame RUNNING (balance g) (multiplierAt (roundTime g + dt))
         (crashMultiplier g) (roundTime g + dt) (endTimer g)
         (cashoutLocked g) (crashLocked g) (history g)
         (UI.setPotential (COST_TO_PLAY * multiplierAt (roundTime g + dt))
          :: UI.setMultiplier (multiplierAt (roundTime g + dt)) :: ui g).

(** What every state of the engine satisfies: both locks are open until the
    round is settled, the displayed multiplier is on the curve, and until the
    draw is delivered the crash multiplier is at its placeholder and the
    round clock at zero. *)
Record consistent (g : Game) : Prop := mkConsistent {
  locks_open :
    state g = IDLE \/ state g = FETCHING_RNG \/ state g = RUNNING ->
    cashoutLocked g = false /\ crashLocked g = false;
  on_curve :
    currentMultiplier g = multiplierAt (roundTime g);
  placeholder :
    state g = IDLE \/ state g = FETCHING_RNG ->
    crashMultiplier g = MAX_MULTIPLIER;
  at_rest :
    state g = IDLE \/ state g = FETCHING_RNG ->
    roundTime g = 0
}.

(** ** The UI as the engine leaves it ([ui.ts])

    What the UI holds after a log of calls: its own copy of the state (the
    argument of the latest [setState], [IDLE] before any), and the balance
    and history it last wrote to the page. *)

Fixpoint ui_state (log : list UI.call) : GameState :=
  match log with
  | [] => IDLE
  | UI.setState s :: _ => s
  | _ :: rest => ui_state rest
  end.

Fixpoint ui_balance (log : list UI.call) : option R :=
  match log with
  | [] => None
  | UI.setBalance b :: _ => Some b
  | _ :: rest => ui_balance rest
  end.

Fixpoint ui_history (log : list UI.call) : option (list HistoryEntry) :=
  match log with
  | [] => None
  | UI.setHistory h :: _ => Some h
  | _ :: rest => ui_history rest
  end.

(** [playBtn.disabled], as [setState] sets it for each state. *)
Definition playBtn_disabled (s : GameState) : bool :=
  match s with
  | RUNNING => false
  | FETCHING_RNG => true
  | CASHED_OUT | CRASHED => true
  | IDLE => false
  end.

(** The click listener of the play button, with the handlers that [Game]
    passes to the UI ([onCashOut], [onPlay]). *)
Definition click (g : Game) : Game :=
  if GameState_eqb (ui_state (ui g)) RUNNING then cashOut g
  else if GameState_eqb (ui_state (ui g)) IDLE then startRound g
  else g.

(** The [keydown] listener of the window, for the space key. *)
Definition keydown_Space (g : Game) : Game :=
  if GameState_eqb (state g) RUNNING then cashOut g else g.

(** The moves of the state machine: from state [a], event [e] may lead to
    state [b]. *)
Definition allowed (a : GameState) (e : event) (b : GameState) : bool :=
  match a, e with
  | IDLE, Play => GameState_eqb b FETCHING_RNG || GameState_eqb b IDLE
  | FETCHING_RNG, Fetched _ => GameState_eqb b RUNNING
  | RUNNING, CashOut => GameState_eqb b CASHED_OUT
  | RUNNING, Frame _ =>
      GameState_eqb b RUNNING || GameState_eqb b CRASHED || GameState_eqb b IDLE
  | CASHED_OUT, Frame _ => GameState_eqb b CASHED_OUT || GameState_eqb b IDLE
  | CRASHED, Frame _ => GameState_eqb b CRASHED || GameState_eqb b IDLE
  | _, _ => GameState_eqb b a
  end.

(** ** Effects ([effects.ts]) *)

Definition clamp (value min max : R) : R := Rmax min (Rmin max value).

Definition lerp (a b t : R) : R := a + (b - a) * t.

Module FlashPulse.

Record pulse : Type := mkPulse {
  alpha : R;
  duration : R;
  elapsed : R;
  maxAlpha : R
}.

Definition new : pulse := mkPulse 0 0 0 0.

Definition trigger (maxAlpha duration : R) (this : pulse) : pulse :=
  mkPulse maxAlpha duration 0 maxAlpha.

Definition update (dt : R) (this : pulse) : pulse :=
  if Rle_dec (duration this) 0 then
    mkPulse 0 (duration this) (elapsed this) (maxAlpha this)
  else
    let elapsed := elapsed this + dt in
    let t := clamp (elapsed / duration this) 0 1 in
    let alpha := maxAlpha this * (1 - t) in
    if Rge_dec t 1 then mkPulse 0 0 elapsed (maxAlpha this)
    else mkPulse alpha (duration this) elapsed (maxAlpha this).

(** The pulse after a [trigger] followed by frames of the given durations. *)
Definition frames (dts : list R) (this : pulse) : pulse :=
  fold_left (fun p dt => update dt p) dts this.

End FlashPulse.

Module ScreenShake.

Record shake : Type := mkShake {
  offsetX : R;
  offsetY : R;
  timeLeft : R;
  duration : R;
  amplitude : R
}.

Definition new : shake := mkShake 0 0 0 0 0.

Definition start (amplitude duration : R) (this : shake) : shake :=
  mkShake (offsetX this) (offsetY this) duration duration amplitude.

(** [random] is the value of [Math.random()] in this call. *)
Definition update (dt random : R) (this : shake) : shake :=
  if Rle_dec (timeLeft this) 0 then
    mkShake 0 0 (timeLeft this) (duration this) (amplitude this)
  else
    let timeLeft := timeLeft this - dt in
    let t := clamp (timeLeft / duration this) 0 1 in
    let strength := amplitude this * t in
    let angle := random * PI * 2 in
    mkShake (cos angle * strength) (sin angle * strength) timeLeft
            (duration this) (amplitude this).

(** Frames given with their duration and their random number. *)
Definition frames (fs : list (R * R)) (this : shake) : shake :=
  fold_left (fun s f => update (fst f) (snd f) s) fs this.

End ScreenShake.

(** The first lines of [Game.update]: the flight intensity eases towards 1
    while the round runs and towards 0 otherwise. *)
Definition flightIntensity_update (s : GameState) (dt flightIntensity : R) : R :=
  let targetIntensity := if GameState_eqb s RUNNING then 1 else 0 in
  let ease := 1 - exp (- dt * 2.4) in
  lerp flightIntensity targetIntensity ease.

(** One call of the [animate] callback of [UI.animateReturn], at frame time
    [time] for an animation started at [start]: the value left on the page
    and whether another frame is requested. *)
Definition animate (from to durationMs start time : R) : R * bool :=
  let delta := to - from in
  let t := Rmin 1 ((time - start) / durationMs) in
  let eased := if Rlt_dec t 0.5 then 2 * t * t else 1 - (-2 * t + 2) ^ 2 / 2 in
  let value := from + delta * eased in
  if Rlt_dec t 1 then (value, true) else (to, false).

(** The amplitude envelope of the synthesised sounds ([Game.ts]). *)
Definition envelope (t duration attack release : R) : R :=
  let attackPhase := clamp (t / attack) 0 1 in
  let releasePhase := clamp ((duration - t) / release) 0 1 in
  Rmin attackPhase releasePhase.

(** [Math.round]: the integer at or below [x + 1/2]. *)
Definition Math_round (x : R) : Z := Int_part (x + 1 / 2).

(** [lerpColor], on colours given as integers below [2^31], for which the
    32-bit operators of JavaScript are those of [Z]. *)
Definition lerpColor (from to : Z) (t : R) : Z :=
  let clamped := clamp t 0 1 in
  let r1 := Z.land (Z.shiftr from 16) 255 in
  let g1 := Z.land (Z.shiftr from 8) 255 in
  let b1 := Z.land from 255 in
  let r2 := Z.land (Z.shiftr to 16) 255 in
  let g2 := Z.land (Z.shiftr to 8) 255 in
  let b2 := Z.land to 255 in
  let r := Math_round (lerp (IZR r1) (IZR r2) clamped) in
  let g := Math_round (lerp (IZR g1) (IZR g2) clamped) in
  let b := Math_round (lerp (IZR b1) (IZR b2) clamped) in
  Z.lor (Z.lor (Z.shiftl r 16) (Z.shiftl g 8)) b.

(** The easing of [animate] as a function of the progress [t]. *)
Definition easeInOut (t : R) : R :=
  if Rlt_dec t 0.5 then 2 * t * t else 1 - (-2 * t + 2) ^ 2 / 2.

(** ** The particle pool ([effects.ts])

    The two arrays of a [ParticleSystem] are lists in index order: [push]
    appends, [pop] takes the last item.  Of a PIXI sprite, the fields that
    the class writes are kept. *)

Module ParticleSystem.

Record Sprite : Type := mkSprite {
  visible : bool;
  alpha : R;
  x : R;
  y : R;
  rotation : R;
  scaleX : R;
  scaleY : R;
  tint : Z
}.

Record Particle : Type := mkParticle {
  sprite : Sprite;
  age : R;
  life : R;
  vx : R;
  vy : R;
  ax : R;
  ay : R;
  startScaleX : R;
  startScaleY : R;
  endScaleX : R;
  endScaleY : R;
  startAlpha : R;
  endAlpha : R;
  rotationSpeed : R
}.

Record system : Type := mkSystem {
  pool : list Particle;
  active : list Particle
}.

(** A particle as the constructor makes it, around a fresh white sprite. *)
Definition blank : Particle :=
  mkParticle (mkSprite false 0 0 0 0 1 1 16777215) 0 0 0 0 0 0 1 1 1 1 1 0 0.

Definition new (max : nat) : system := mkSystem (repeat blank max) [].

(** [array.pop()]: the last item and the array without it. *)
Fixpoint pop {A : Type} (l : list A) : option (A * list A) :=
  match l with
  | [] => None
  | a :: rest =>
      match pop rest with
      | None => Some (a, [])
      | Some (z, front) => Some (z, a :: front)
      end
  end.

(** [array[i] = a], for an index inside the array. *)
Fixpoint set_nth {A : Type} (i : nat) (a : A) (l : list A) : list A :=
  match l, i with
  | [], _ => []
  | _ :: rest, O => a :: rest
  | b :: rest, S i => b :: set_nth i a rest
  end.

(** [sprite.visible = false; sprite.alpha = 0]. *)
Definition hide (p : Particle) : Particle :=
  let s := sprite p in
  mkParticle (mkSprite false 0 (x s) (y s) (rotation s) (scaleX s) (scaleY s)
                       (tint s))
             (age p) (life p) (vx p) (vy p) (ax p) (ay p)
             (startScaleX p) (startScaleY p) (endScaleX p) (endScaleY p)
             (startAlpha p) (endAlpha p) (rotationSpeed p).

(** [spawn] assigns every field of the particle it takes from the pool. *)
Definition spawn (x y vx vy ax ay life : R) (tint : Z)
           (startScaleX startScaleY endScaleX endScaleY startAlpha endAlpha
              rotation rotationSpeed : R) (this : system) : system :=
  match pop (pool this) with
  | None => this
  | Some (_, rest) =>
      let particle :=
        mkParticle
          (mkSprite true startAlpha x y rotation startScaleX startScaleY tint)
          0 life vx vy ax ay startScaleX startScaleY endScaleX endScaleY
          startAlpha endAlpha rotationSpeed in
      mkSystem rest (active this ++ [particle])
  end.

(** [particle.age += dt]. *)
Definition aged (dt : R) (p : Particle) : Particle :=
  mkParticle (sprite p) (age p + dt) (life p) (vx p) (vy p) (ax p) (ay p)
             (startScaleX p) (startScaleY p) (endScaleX p) (endScaleY p)
             (startAlpha p) (endAlpha p) (rotationSpeed p).

(** The rest of the loop body of [update] for a particle that lives on. *)
Definition moved (dt : R) (p : Particle) : Particle :=
  let vx := vx p + ax p * dt in
  let vy := vy p + ay p * dt in
  let s := sprite p in
  let t := age p / life p in
  mkParticle
    (mkSprite (visible s)
              (lerp (startAlpha p) (endAlpha p) t)
              (x s + vx * dt) (y s + vy * dt)
              (rotation s + rotationSpeed p * dt)
              (lerp (startScaleX p) (endScaleX p) t)
              (lerp (startScaleY p) (endScaleY p) t)
              (tint s))
    (age p) (life p) vx vy (ax p) (ay p)
    (startScaleX p) (startScaleY p) (endScaleX p) (endScaleY p)
    (startAlpha p) (endAlpha p) (rotationSpeed p).

(** The loop of [update], from index [i].  Each turn either moves on to the
    next index or shortens the array; [fuel] bounds the number of turns,
    and the length of the array is enough. *)
Fixpoint update_loop (fuel : nat) (dt : R) (i : nat)
         (pool active : list Particle) : list Particle * list Particle :=
  match fuel with
  | O => (pool, active)
  | S fuel =>
      match nth_error active i with
      | None => (pool, active)
      | Some particle =>
          let particle := aged dt particle in
          if Rge_dec (age particle) (life particle) then
            update_loop fuel dt i (pool ++ [hide particle])
                        (removelast (set_nth i (last active particle) active))
          else
            update_loop fuel dt (S i) pool
                        (set_nth i (moved dt particle) active)
      end
  end.

Definition update (dt : R) (this : system) : system :=
  let (pool, active) :=
    update_loop (List.length (active this)) dt 0 (pool this) (active this) in
  mkSystem pool active.

Definition clear (this : system) : system :=
  mkSystem (pool this ++ map hide (active this)) [].

(** A particle whose sprite is out of sight. *)
Definition hidden (p : Particle) : Prop :=
  visible (sprite p) = false /\ alpha (sprite p) = 0.

(** Whether a particle is at the end of its life after a frame. *)
Definition expires (dt : R) (p : Particle) : bool :=
  if Rge_dec (age p + dt) (life p) then true else false.

(** The systems that calls of [spawn], [update] and [clear] make of a new
    one. *)
Inductive reachable (max : nat) : system -> Prop :=
| reach_new : reachable max (new max)
| reach_spawn x y vx vy ax ay life tint s1 s2 e1 e2 a1 a2 rot rs this :
    reachable max this ->
    reachable max (spawn x y vx vy ax ay life tint s1 s2 e1 e2 a1 a2 rot rs this)
| reach_update dt this :
    reachable max this -> reachable max (update dt this)
| reach_clear this :
    reachable max this -> reachable max (clear this).

End ParticleSystem.

(** ** The sound bank ([Game.ts])

    Of the [SoundBank], the fields the class itself owns and the commands it
    gives to the audio library: the name of the sound that [play] starts,
    the rate and the volume that [updateEngine] sets on the engine loop.
    [engineId] is set and cleared through the audio library and is taken as
    it is found. *)

Module SoundBank.

Inductive sound : Set :=
| click | launch | cashout | tick | celebrate | jackpot | crash.

Record bank : Type := mkBank {
  unlocked : bool;
  engineId : option Z;
  duckTimer : R;
  duckLevel : R
}.

Definition new : bank := mkBank false None 0 1.

Definition duck (durationMs depth : R) (this : bank) : bank :=
  mkBank (unlocked this) (engineId this)
         (Rmax (duckTimer this) (durationMs / 1000))
         (Rmin (duckLevel this) depth).

Definition play (name : sound) (this : bank) : bank * option sound :=
  if negb (unlocked this) then (this, None)
  else
    let this :=
      match name with
      | tick => this
      | _ => duck 320 0.55 this
      end in
    (this, Some name).

Definition updateEngine (multiplier flightIntensity dt : R) (this : bank)
  : bank * option (R * R) :=
  if negb (unlocked this)
     || match engineId this with None => true | Some _ => false end
  then (this, None)
  else
    let this :=
      if Rgt_dec (duckTimer this) 0 then
        mkBank (unlocked this) (engineId this)
               (Rmax 0 (duckTimer this - dt)) (duckLevel this)
      else
        mkBank (unlocked this) (engineId this) (duckTimer this)
               (lerp (duckLevel this) 1 (dt * 3)) in
    let boost := clamp ((multiplier - 1) / 9) 0 1 in
    let rate := lerp 0.9 1.35 boost in
    let baseVolume := 0.22 * flightIntensity in
    let targetVolume := baseVolume * duckLevel this in
    (this, Some (rate, targetVolume)).

End SoundBank.

(** ** The WAV encoder ([Game.ts])

    The [ArrayBuffer] is the list of its bytes; the [DataView] writes of the
    encoder are little-endian and fall inside the buffer. *)

Definition SAMPLE_RATE : Z := 44100.

(** The integer part of a number, towards zero. *)
Definition truncate (x : R) : Z :=
  if Rle_dec 0 x then Int_part x else (- Int_part (- x))%Z.

Module Wav.

(** The bytes [data] written over the buffer from [offset] on. *)
Fixpoint write (offset : nat) (data buffer : list Z) : list Z :=
  match buffer with
  | [] => []
  | b :: rest =>
      match offset with
      | S k => b :: write k data rest
      | O =>
          match data with
          | [] => buffer
          | d :: data => d :: write 0 data rest
          end
      end
  end.

(** The low bytes of an integer, the lowest first. *)
Definition le16 (v : Z) : list Z := [v mod 256; (v / 256) mod 256]%Z.

Definition le32 (v : Z) : list Z :=
  [v mod 256; (v / 256) mod 256; (v / 65536) mod 256;
   (v / 16777216) mod 256]%Z.

Definition setUint8 (offset : nat) (v : Z) (buffer : list Z) : list Z :=
  write offset [v mod 256]%Z buffer.

(** The encoder passes [littleEndian = true] in every call. *)
Definition setUint16 (offset : nat) (v : Z) (buffer : list Z) : list Z :=
  write offset (le16 v) buffer.

Definition setUint32 (offset : nat) (v : Z) (buffer : list Z) : list Z :=
  write offset (le32 v) buffer.

(** [setInt16] of a number: its integer part, in two's complement. *)
Definition setInt16 (offset : nat) (x : R) (buffer : list Z) : list Z :=
  setUint16 offset (truncate x) buffer.

Fixpoint writeString (offset : nat) (value : string) (buffer : list Z)
  : list Z :=
  match value with
  | EmptyString => buffer
  | String c rest =>
      writeString (S offset) rest (setUint8 offset (Browser.code c) buffer)
  end.

(** The loop over the samples, from [offset]. *)
Fixpoint writeSamples (offset : nat) (samples : list R) (buffer : list Z)
  : list Z :=
  match samples with
  | [] => buffer
  | sample :: rest =>
      let s := clamp sample (-1) 1 in
      let buffer :=
        setInt16 offset (if Rlt_dec s 0 then s * 32768 else s * 32767) buffer in
      writeSamples (offset + 2) rest buffer
  end.

(** The buffer as [samplesToWavData] fills it. *)
Definition wavBuffer (samples : list R) (sampleRate : Z) : list Z :=
  let n := Z.of_nat (List.length samples) in
  let buffer := repeat 0%Z (44 + List.length samples * 2) in
  let buffer := writeString 0 "RIFF" buffer in
  let buffer := setUint32 4 (36 + n * 2) buffer in
  let buffer := writeString 8 "WAVE" buffer in
  let buffer := writeString 12 "fmt " buffer in
  let buffer := setUint32 16 16 buffer in
  let buffer := setUint16 20 1 buffer in
  let buffer := setUint16 22 1 buffer in
  let buffer := setUint32 24 sampleRate buffer in
  let buffer := setUint32 28 (sampleRate * 2) buffer in
  let buffer := setUint16 32 2 buffer in
  let buffer := setUint16 34 16 buffer in
  let buffer := writeString 36 "data" buffer in
  let buffer := setUint32 40 (n * 2) buffer in
  writeSamples 44 samples buffer.

(** [btoa] is the built-in of the platform. *)
Definition samplesToWavData (btoa : string -> string) (samples : list R)
           (sampleRate : Z) : string :=
  let bytes := wavBuffer samples sampleRate in
  let binary := Browser.text (map Browser.byte bytes) in
  String.append "data:audio/wav;base64," (btoa binary).

(** Reading back, as a WAV decoder does. *)
Definition readUint16 (offset : nat) (buffer : list Z) : Z :=
  (nth offset buffer 0 + 256 * nth (offset + 1) buffer 0)%Z.

Definition readUint32 (offset : nat) (buffer : list Z) : Z :=
  (nth offset buffer 0 + 256 * nth (offset + 1) buffer 0
   + 65536 * nth (offset + 2) buffer 0
   + 16777216 * nth (offset + 3) buffer 0)%Z.

Definition readInt16 (offset : nat) (buffer : list Z) : Z :=
  let u := readUint16 offset buffer in
  if (u <? 32768)%Z then u else (u - 65536)%Z.

Definition readString (offset len : nat) (buffer : list Z) : string :=
  Browser.text (map Browser.byte (firstn len (skipn offset buffer))).

(** The 16-bit value of a sample. *)
Definition quantize (sample : R) : Z :=
  let s := clamp sample (-1) 1 in
  truncate (if Rlt_dec s 0 then s * 32768 else s * 32767).

End Wav.

(** ** The tones ([Game.ts])

    Each generator hands [generateSamples] a function of the time of the
    sample.  The function of [makeNoise] draws from [Math.random] at each
    call: the functions get the number of the call, and the noise its draw
    of that number. *)

Inductive waveType : Set := sine | square | saw.

Definition Math_floor (x : R) : Z := Int_part x.

Definition Math_sign (x : R) : R :=
  if Rlt_dec 0 x then 1 else if Rlt_dec x 0 then -1 else 0.

(** [a % b] on numbers: [a] less the whole multiples of [b] in it, with the
    sign of [a]. *)
Definition remainder (a b : R) : R := a - b * IZR (truncate (a / b)).

(** A [Float32Array] of a negative length is a [RangeError]. *)
Definition generateSamples (duration : R) (fn : nat -> R -> R)
  : option (list R) :=
  let length := Math_floor (duration * IZR SAMPLE_RATE) in
  if (length <? 0)%Z then None
  else Some (map (fun i => fn i (INR i / IZR SAMPLE_RATE))
                 (seq 0 (Z.to_nat length))).

Definition makeTone_sample (duration frequency volume : R) (type : waveType)
           (t : R) : R :=
  let angle := 2 * PI * frequency * t in
  let wave := sin angle in
  let wave :=
    match type with
    | square => Math_sign wave
    | saw =>
        let period := 1 / frequency in
        2 * (remainder t period / period) - 1
    | sine => wave
    end in
  let env := envelope t duration 0.02 0.1 in
  wave * env * volume.

Definition makeGlide_sample (duration startFreq endFreq volume t : R) : R :=
  let freq := lerp startFreq endFreq (t / duration) in
  let angle := 2 * PI * freq * t in
  let wave := sin angle in
  let env := envelope t duration 0.02 0.12 in
  wave * env * volume.

Definition makeChord_sample (duration : R) (frequencies : list R)
           (volume t : R) : R :=
  let mix :=
    fold_left (fun mix freq => mix + sin (2 * PI * freq * t)) frequencies 0 in
  let mix := mix / Rmax 1 (INR (List.length frequencies)) in
  let env := envelope t duration 0.03 0.2 in
  mix * env * volume.

Definition makeNoise_sample (duration volume random t : R) : R :=
  let env := envelope t duration 0.01 0.2 in
  (random * 2 - 1) * env * volume.

Definition makeEngineHum_sample (duration volume t : R) : R :=
  let base := sin (2 * PI * 110 * t) in
  let overtone := sin (2 * PI * 220 * t) * 0.5 in
  let env := envelope t duration 0.03 0.2 in
  (base + overtone) * env * volume.

Section Tones.

Variable btoa : string -> string.

Definition encoded (samples : option (list R)) : option string :=
  option_map (fun samples => Wav.samplesToWavData btoa samples SAMPLE_RATE)
             samples.

Definition makeTone (duration frequency volume : R) (type : waveType)
  : option string :=
  encoded (generateSamples duration
             (fun _ => makeTone_sample duration frequency volume type)).

Definition makeGlide (duration startFreq endFreq volume : R)
  : option string :=
  encoded (generateSamples duration
             (fun _ => makeGlide_sample duration startFreq endFreq volume)).

Definition makeChord (duration : R) (frequencies : list R) (volume : R)
  : option string :=
  encoded (generateSamples duration
             (fun _ => makeChord_sample duration frequencies volume)).

(** [random i] is the draw of the call of number [i]. *)
Definition makeNoise (random : nat -> R) (duration volume : R)
  : option string :=
  encoded (generateSamples duration
             (fun i => makeNoise_sample duration volume (random i))).

Definition makeEngineHum (duration volume : R) : option string :=
  encoded (generateSamples duration
             (fun _ => makeEngineHum_sample duration volume)).

End Tones.

(** * Properties *)

(** ** States and constants *)

Lemma GameState_eqb_eq (a b : GameState) : GameState_eqb a b = true <-> a = b.
Proof. destruct a, b; simpl; split; congruence. Qed.

Lemma GameState_eqb_refl (a : GameState) : GameState_eqb a a = true.
Proof. now destruct a. Qed.

Lemma GameState_eqb_neq (a b : GameState) : a <> b -> GameState_eqb a b = false.
Proof. destruct a, b; simpl; congruence. Qed.

Ltac constants :=
  unfold COST_TO_PLAY, START_BALANCE, MAX_MULTIPLIER, HOUSE_EDGE,
    TARGET_MULTIPLIER, TARGET_TIME in *.

(** ** The multiplier curve *)

Lemma GROWTH_K_pos : 0 < GROWTH_K.
Proof.
  unfold GROWTH_K; constants.
  assert (0 < ln 3.4) by (rewrite <- ln_1; apply ln_increasing; lra).
  apply Rdiv_lt_0_compat; lra.
Qed.

Lemma exp_le (x y : R) : x <= y -> exp x <= exp y.
Proof.
  intros [H | ->]; [left; now apply exp_increasing | right; reflexivity].
Qed.

Lemma exp_ge_1 (x : R) : 0 <= x -> 1 <= exp x.
Proof. intros H. rewrite <- exp_0. now apply exp_le. Qed.

Lemma multiplierAt_0 : multiplierAt 0 = 1.
Proof.
  unfold multiplierAt. rewrite Rmult_0_r, exp_0.
  apply Rmin_right; constants; lra.
Qed.

Lemma multiplierAt_mono (t1 t2 : R) :
  t1 <= t2 -> multiplierAt t1 <= multiplierAt t2.
Proof.
  intros H. unfold multiplierAt.
  assert (exp (GROWTH_K * t1) <= exp (GROWTH_K * t2)).
  { apply exp_le. pose proof GROWTH_K_pos. nra. }
  apply Rmin_glb.
  - apply Rmin_l.
  - eapply Rle_trans; [apply Rmin_r | assumption].
Qed.

Lemma exp_at_target (x : R) : 0 < x -> exp (GROWTH_K * (ln x / GROWTH_K)) = x.
Proof.
  intros H. pose proof GROWTH_K_pos.
  replace (GROWTH_K * (ln x / GROWTH_K)) with (ln x) by (field; lra).
  now apply exp_ln.
Qed.

Lemma multiplierAt_target : multiplierAt TARGET_TIME = TARGET_MULTIPLIER.
Proof.
  unfold multiplierAt, GROWTH_K.
  replace (ln TARGET_MULTIPLIER / TARGET_TIME * TARGET_TIME)
    with (ln TARGET_MULTIPLIER) by (constants; field).
  rewrite exp_ln by (constants; lra).
  apply Rmin_right; constants; lra.
Qed.

Lemma multiplierAt_ge_1 (t : R) : 0 <= t -> 1 <= multiplierAt t.
Proof.
  intros H. rewrite <- multiplierAt_0. now apply multiplierAt_mono.
Qed.

Lemma multiplierAt_le_max (t : R) : multiplierAt t <= MAX_MULTIPLIER.
Proof. apply Rmin_l. Qed.

(** ** The methods, case by case *)

Lemma startRound_busy (g : Game) : state g <> IDLE -> startRound g = g.
Proof.
  intros H. unfold startRound. now rewrite (GameState_eqb_neq _ _ H).
Qed.

Lemma startRound_rejected (g : Game) :
  state g = IDLE -> balance g < COST_TO_PLAY ->
  startRound g =
    tell (UI.showTooltip "Balance too low to play.")
         (tell UI.clearMegaWin (tell UI.clearBanner g)).
Proof.
  intros Hs Hb. unfold startRound. rewrite Hs. simpl.
  destruct (Rlt_dec (balance g) COST_TO_PLAY); [reflexivity | contradiction].
Qed.

Lemma startRound_accepted (g : Game) :
  state g = IDLE -> COST_TO_PLAY <= balance g ->
  startRound g =
    mkGame FETCHING_RNG (balance g - COST_TO_PLAY) 1 MAX_MULTIPLIER 0
           (endTimer g) false false (history g)
           (UI.setPotential COST_TO_PLAY :: UI.setMultiplier 1
            :: UI.setBalance (balance g - COST_TO_PLAY)
            :: UI.setState FETCHING_RNG
            :: UI.clearMegaWin :: UI.clearBanner :: ui g).
Proof.
  intros Hs Hb. unfold startRound. rewrite Hs. simpl.
  destruct (Rlt_dec (balance g) COST_TO_PLAY); [lra | reflexivity].
Qed.

Lemma startRound_resume_stale (c : R) (g : Game) :
  state g <> FETCHING_RNG -> startRound_resume c g = g.
Proof.
  intros H. unfold startRound_resume. now rewrite (GameState_eqb_neq _ _ H).
Qed.

Lemma startRound_resume_fetching (c : R) (g : Game) :
  state g = FETCHING_RNG ->
  startRound_resume c g =
    mkGame RUNNING (balance g) (currentMultiplier g) c (roundTime g)
           (endTimer g) (cashoutLocked g) (crashLocked g) (history g)
           (UI.setState RUNNING :: ui g).
Proof. intros H. unfold startRound_resume. now rewrite H. Qed.

Lemma cashOut_rejected (g : Game) : state g <> RUNNING -> cashOut g = g.
Proof.
  intros H. unfold cashOut. now rewrite (GameState_eqb_neq _ _ H).
Qed.

Lemma crash_rejected (g : Game) : state g <> RUNNING -> crash g = g.
Proof.
  intros H. unfold crash. now rewrite (GameState_eqb_neq _ _ H).
Qed.

Lemma crash_running (g : Game) :
  state g = RUNNING -> crashLocked g = false ->
  crash g =
    mkGame CRASHED (balance g) (currentMultiplier g) (crashMultiplier g)
           (roundTime g) 1.6 (cashoutLocked g) true
           (firstn 12 (mkEntry (Rmin MAX_MULTIPLIER (crashMultiplier g)) None
                       :: history g))
           (UI.setHistory
              (firstn 12 (mkEntry (Rmin MAX_MULTIPLIER (crashMultiplier g)) None
                          :: history g))
            :: UI.animateReturn (COST_TO_PLAY * currentMultiplier g) 0 700
            :: UI.showBanner (currentMultiplier g) UI.crash
            :: UI.setLastResult COST_TO_PLAY UI.loss
            :: UI.setState CRASHED :: ui g).
Proof. intros Hs Hl. unfold crash. now rewrite Hs, Hl. Qed.

Lemma cashOut_running (g : Game) :
  state g = RUNNING -> cashoutLocked g = false ->
  state (cashOut g) = CASHED_OUT /\
  balance (cashOut g) = balance g + COST_TO_PLAY * currentMultiplier g /\
  currentMultiplier (cashOut g) = currentMultiplier g /\
  crashMultiplier (cashOut g) = crashMultiplier g /\
  roundTime (cashOut g) = roundTime g /\
  endTimer (cashOut g) = 1.6 /\
  UI.settlements (ui (cashOut g)) =
    UI.setLastResult (COST_TO_PLAY * currentMultiplier g) UI.win
    :: UI.settlements (ui g).
Proof.
  intros Hs Hl. unfold cashOut. rewrite Hs, Hl. simpl.
  destruct (Rge_dec (currentMultiplier g) (MAX_MULTIPLIER - 0.01));
    [| destruct (Rge_dec (currentMultiplier g) 10)];
    simpl; repeat split; reflexivity.
Qed.

Lemma update_waiting (dt : R) (g : Game) :
  state g = IDLE \/ state g = FETCHING_RNG -> update dt g = g.
Proof. intros [H | H]; unfold update; rewrite H; simpl; now rewrite H. Qed.

Lemma update_settled (dt : R) (g : Game) :
  settled g = true ->
  update dt g =
    if Rle_dec (endTimer g - dt) 0
    then resetRound (set_endTimer (endTimer g - dt) g)
    else set_endTimer (endTimer g - dt) g.
Proof.
  unfold settled, update. intros H.
  destruct (state g) eqn:Hs; simpl in *; try discriminate;
    rewrite Hs; reflexivity.
Qed.

Lemma update_climbing (dt : R) (g : Game) :
  state g = RUNNING ->
  multiplierAt (roundTime g + dt) < crashMultiplier g ->
  update dt g = advanced dt g.
Proof.
  destruct g as [s b cm cr rt et cl kl h u]; simpl. intros -> Hlt.
  unfold update, advanced; simpl. fold (multiplierAt (rt + dt)).
  destruct (Rge_dec (multiplierAt (rt + dt)) cr) as [Hge | _].
  - lra.
  - reflexivity.
Qed.

Lemma update_crashing (dt : R) (g : Game) :
  state g = RUNNING -> crashLocked g = false ->
  multiplierAt (roundTime g + dt) >= crashMultiplier g ->
  update dt g =
    if Rle_dec (1.6 - dt) 0
    then resetRound (set_endTimer (1.6 - dt) (crash (advanced dt g)))
    else set_endTimer (1.6 - dt) (crash (advanced dt g)).
Proof.
  destruct g as [s b cm cr rt et cl kl h u]; simpl. intros -> -> Hge.
  unfold update, advanced; simpl. fold (multiplierAt (rt + dt)).
  destruct (Rge_dec (multiplierAt (rt + dt)) cr) as [_ | Hlt].
  - reflexivity.
  - contradiction.
Qed.

(** ** Every state of the engine is consistent *)

Ltac state_cases :=
  repeat match goal with
    | H : _ \/ _ |- _ => destruct H
    | H : _ /\ _ |- _ => destruct H
    end;
  try discriminate; try congruence; auto.

Lemma consistent_new : consistent new_Game.
Proof.
  constructor; simpl; intros; auto.
  symmetry; apply multiplierAt_0.
Qed.

Lemma consistent_resetRound (g : Game) : consistent (resetRound g).
Proof.
  constructor; simpl; intros; auto.
  symmetry; apply multiplierAt_0.
Qed.

Lemma consistent_startRound (g : Game) :
  consistent g -> consistent (startRound g).
Proof.
  intros [Hl Hc Hp Ht].
  destruct (GameState_eqb (state g) IDLE) eqn:Hs.
  - apply GameState_eqb_eq in Hs.
    destruct (Rlt_dec (balance g) COST_TO_PLAY) as [Hb | Hb].
    + rewrite startRound_rejected by assumption.
      constructor; simpl; auto.
    + rewrite startRound_accepted by (auto; lra).
      constructor; simpl; intros; auto.
      symmetry; apply multiplierAt_0.
  - rewrite startRound_busy; [now constructor |].
    intros E; rewrite E in Hs; discriminate.
Qed.

Lemma consistent_startRound_resume (c : R) (g : Game) :
  consistent g -> consistent (startRound_resume c g).
Proof.
  intros [Hl Hc Hp Ht].
  destruct (GameState_eqb (state g) FETCHING_RNG) eqn:Hs.
  - apply GameState_eqb_eq in Hs.
    rewrite startRound_resume_fetching by assumption.
    constructor; simpl; intros; state_cases.
  - rewrite startRound_resume_stale; [now constructor |].
    intros E; rewrite E in Hs; discriminate.
Qed.

Lemma consistent_cashOut (g : Game) : consistent g -> consistent (cashOut g).
Proof.
  intros [Hl Hc Hp Ht].
  destruct (GameState_eqb (state g) RUNNING) eqn:Hs.
  - apply GameState_eqb_eq in Hs.
    destruct (Hl (or_intror (or_intror Hs))) as [Hco _].
    destruct (cashOut_running g Hs Hco) as (E1 & _ & E2 & _ & E3 & _).
    constructor; rewrite ?E1, ?E2, ?E3; intros; state_cases.
  - rewrite cashOut_rejected; [now constructor |].
    intros E; rewrite E in Hs; discriminate.
Qed.

Lemma consistent_update (dt : R) (g : Game) :
  consistent g -> consistent (update dt g).
Proof.
  intros [Hl Hc Hp Ht].
  destruct (state g) eqn:Hs.
  - rewrite update_waiting by auto. constructor; rewrite ?Hs; auto.
  - rewrite update_waiting by auto. constructor; rewrite ?Hs; auto.
  - destruct (Hl (or_intror (or_intror eq_refl))) as [_ Hcr].
    destruct (Rlt_dec (multiplierAt (roundTime g + dt)) (crashMultiplier g)).
    + rewrite update_climbing by assumption.
      constructor; simpl; intros; state_cases.
    + rewrite update_crashing by (auto; lra).
      destruct (Rle_dec (1.6 - dt) 0).
      * apply consistent_resetRound.
      * rewrite crash_running by (simpl; auto).
        constructor; simpl; intros; state_cases.
  - rewrite update_settled by (unfold settled; now rewrite Hs).
    destruct (Rle_dec (endTimer g - dt) 0).
    + apply consistent_resetRound.
    + constructor; simpl; rewrite ?Hs; intros; state_cases.
  - rewrite update_settled by (unfold settled; now rewrite Hs).
    destruct (Rle_dec (endTimer g - dt) 0).
    + apply consistent_resetRound.
    + constructor; simpl; rewrite ?Hs; intros; state_cases.
Qed.

Lemma consistent_step (g : Game) (e : event) :
  consistent g -> consistent (step g e).
Proof.
  destruct e; simpl.
  - apply consistent_startRound.
  - apply consistent_startRound_resume.
  - apply consistent_cashOut.
  - apply consistent_update.
Qed.

Lemma reachable_consistent (g : Game) : reachable g -> consistent g.
Proof.
  induction 1; [apply consistent_new | now apply consistent_step].
Qed.

Lemma reachable_run (g : Game) (es : list event) :
  reachable g -> reachable (run g es).
Proof.
  revert g. induction es as [| e es IH]; intros g H; simpl.
  - assumption.
  - apply IH. now constructor.
Qed.

Lemma run_app (g : Game) (es es' : list event) :
  run g (es ++ es') = run (run g es) es'.
Proof. apply fold_left_app. Qed.

(** ** A round from a fresh object *)

Lemma launched_eq (c : R) :
  launched c =
    mkGame RUNNING (START_BALANCE - COST_TO_PLAY) 1 c 0 0 false false []
           (UI.setState RUNNING :: ui (startRound new_Game)).
Proof.
  unfold launched, run; simpl.
  rewrite startRound_resume_fetching;
    rewrite startRound_accepted; simpl; try reflexivity; constants; lra.
Qed.

Lemma reachable_launched (c : R) : reachable (launched c).
Proof. apply reachable_run, reachable_new. Qed.

Lemma multiplierAt_ln (x : R) :
  0 < x -> x <= MAX_MULTIPLIER -> multiplierAt (0 + ln x / GROWTH_K) = x.
Proof.
  intros H0 H1. unfold multiplierAt. rewrite Rplus_0_l, exp_at_target by assumption.
  now apply Rmin_right.
Qed.

(** ** After a settlement *)

Lemma quiet_step (g : Game) (e : event) :
  state g <> RUNNING -> state g <> FETCHING_RNG -> is_Play e = false ->
  balance (step g e) = balance g /\
  history (step g e) = history g /\
  UI.settlements (ui (step g e)) = UI.settlements (ui g) /\
  (state (step g e) = state g \/ state (step g e) = IDLE).
Proof.
  intros Hr Hf Hp. destruct e as [| c | | dt]; simpl.
  - discriminate.
  - rewrite startRound_resume_stale by assumption. auto.
  - rewrite cashOut_rejected by assumption. auto.
  - destruct (state g) eqn:Hs; try congruence.
    + rewrite update_waiting by auto. auto.
    + rewrite update_settled by (unfold settled; now rewrite Hs).
      destruct (Rle_dec (endTimer g - dt) 0); simpl; auto.
    + rewrite update_settled by (unfold settled; now rewrite Hs).
      destruct (Rle_dec (endTimer g - dt) 0); simpl; auto.
Qed.

Lemma quiet_run (es : list event) (g : Game) :
  state g <> RUNNING -> state g <> FETCHING_RNG -> same_round es ->
  balance (run g es) = balance g /\
  history (run g es) = history g /\
  UI.settlements (ui (run g es)) = UI.settlements (ui g) /\
  (state (run g es) = state g \/ state (run g es) = IDLE).
Proof.
  revert g. induction es as [| e es IH]; intros g Hr Hf Hes; simpl.
  - auto.
  - inversion Hes as [| ? ? He Hes']; subst.
    destruct (quiet_step g e Hr Hf He) as (Hb & Hh & Hu & Hs).
    destruct (IH (step g e)) as (Hb' & Hh' & Hu' & Hs'); auto.
    + destruct Hs as [-> | ->]; [assumption | discriminate].
    + destruct Hs as [-> | ->]; [assumption | discriminate].
    + rewrite Hb', Hh', Hu'. repeat split; auto.
      destruct Hs' as [-> | ->]; auto.
Qed.

(** C1. Settlement happens once per round.  From a state in [CASHED_OUT] or
    [CRASHED], a call of [cashOut()] or [crash()] returns the object
    unchanged; and whatever cash-out requests, frames and stale deliveries
    follow before a new round is started, the balance, the recorded outcomes
    (history and announced results) stay as they are, the state stays as it
    is or returns to [IDLE], and a later [cashOut()] or [crash()] is still
    without effect. *)
Theorem settlement_exactly_once (g : Game) (es : list event) :
  settled g = true -> same_round es ->
  cashOut g = g /\ crash g = g /\
  balance (run g es) = balance g /\
  history (run g es) = history g /\
  UI.settlements (ui (run g es)) = UI.settlements (ui g) /\
  (state (run g es) = state g \/ state (run g es) = IDLE) /\
  cashOut (run g es) = run g es /\ crash (run g es) = run g es.
Proof.
  intros Hs Hes.
  assert (Hr : state g <> RUNNING /\ state g <> FETCHING_RNG).
  { unfold settled in Hs. destruct (state g); simpl in Hs; split; congruence. }
  destruct Hr as [Hr Hf].
  destruct (quiet_run es g Hr Hf Hes) as (Hb & Hh & Hu & Hst).
  assert (Hr' : state (run g es) <> RUNNING).
  { destruct Hst as [-> | ->]; [assumption | discriminate]. }
  repeat split; auto using cashOut_rejected, crash_rejected.
Qed.

Lemma settlement_exactly_once_witness :
  let g := mkGame CRASHED 90 1 1 0.1 1.6 false true [] [] in
  let es := [CashOut; Frame 0.1; Fetched 2; CashOut] in
  settled g = true /\ same_round es /\
  balance (run g es) = balance g /\ cashOut (run g es) = run g es.
Proof.
  intros g es.
  assert (Hs : settled g = true) by reflexivity.
  assert (Hes : same_round es) by (repeat constructor).
  destruct (settlement_exactly_once g es Hs Hes) as (_ & _ & Hb & _ & _ & _ & Hc & _).
  repeat split; assumption.
Defined.

(** C8. A start requested in [IDLE] with a balance below the cost of a round
    is rejected: the state stays [IDLE] and no round field changes (balance,
    multipliers, timers, locks, history); the only effect is on the UI,
    whose banner and mega-win overlay are cleared and which shows the
    advisory tooltip. *)
Theorem insufficient_balance_rejected (g : Game) :
  state g = IDLE -> balance g < COST_TO_PLAY ->
  state (startRound g) = IDLE /\
  round_fields (startRound g) = round_fields g /\
  ui (startRound g) =
    UI.showTooltip "Balance too low to play."
    :: UI.clearMegaWin :: UI.clearBanner :: ui g.
Proof.
  intros Hs Hb. rewrite startRound_rejected by assumption.
  simpl. repeat split; auto.
Qed.

Lemma insufficient_balance_rejected_witness :
  let g := mkGame IDLE 4 1 MAX_MULTIPLIER 0 0 false false [] [] in
  state g = IDLE /\ balance g < COST_TO_PLAY /\
  round_fields (startRound g) = round_fields g.
Proof.
  intros g.
  assert (Hs : state g = IDLE) by reflexivity.
  assert (Hb : balance g < COST_TO_PLAY) by (simpl; constants; lra).
  destruct (insufficient_balance_rejected g Hs Hb) as (_ & H & _).
  repeat split; assumption.
Defined.

(** ** Balance *)

Lemma crash_balance (g : Game) : balance (crash g) = balance g.
Proof.
  unfold crash.
  destruct (negb (GameState_eqb (state g) RUNNING) || crashLocked g);
    reflexivity.
Qed.

(** C7. Balance accounting.  A start that is accepted debits the wager
    [COST_TO_PLAY = 10] in the synchronous part of [startRound], whatever
    crash multiplier is delivered later; a cash-out credits exactly the
    wager times the multiplier shown at that moment; a crash credits
    nothing.  From a fresh object (balance 100) with a round launched at
    crash multiplier 5: the balance is 90; after the frame that brings the
    multiplier to 2 the round is still running, a cash-out there gives 110,
    a crash there leaves 90. *)
Theorem balance_accounting (idle running : Game) (c : R) :
  state idle = IDLE -> COST_TO_PLAY <= balance idle ->
  state running = RUNNING -> cashoutLocked running = false ->
  COST_TO_PLAY = 10 /\
  state (startRound idle) = FETCHING_RNG /\
  balance (startRound idle) = balance idle - COST_TO_PLAY /\
  balance (startRound_resume c (startRound idle)) = balance idle - COST_TO_PLAY /\
  balance (cashOut running) =
    balance running + COST_TO_PLAY * currentMultiplier running /\
  balance (crash running) = balance running /\
  let g := update (ln 2 / GROWTH_K) (launched 5) in
  balance new_Game = 100 /\ balance (launched 5) = 90 /\
  state g = RUNNING /\ currentMultiplier g = 2 /\
  balance (cashOut g) = 110 /\
  state (crash g) = CRASHED /\ balance (crash g) = 90.
Proof.
  intros Hi Hb Hr Hl.
  split; [reflexivity |].
  rewrite startRound_accepted by assumption.
  rewrite startRound_resume_fetching by reflexivity. simpl.
  do 3 (split; [reflexivity |]).
  split; [apply (cashOut_running running Hr Hl) |].
  split; [apply crash_balance |].
  assert (E : update (ln 2 / GROWTH_K) (launched 5)
              = advanced (ln 2 / GROWTH_K) (launched 5)).
  { apply update_climbing; rewrite launched_eq; simpl; [reflexivity |].
    rewrite multiplierAt_ln; constants; lra. }
  rewrite E, launched_eq. unfold advanced. simpl.
  rewrite !multiplierAt_ln by (constants; lra).
  split; [constants; lra |].
  split; [constants; lra |].
  do 2 (split; [reflexivity |]).
  split.
  - match goal with |- balance (cashOut ?g) = _ =>
      destruct (cashOut_running g eq_refl eq_refl) as (_ & -> & _) end.
    simpl. constants; lra.
  - split; [reflexivity | constants; lra].
Qed.

Lemma balance_accounting_witness :
  balance (startRound new_Game) = 90 /\
  balance (cashOut (launched 5)) = 100 /\
  balance (crash (launched 5)) = 90.
Proof.
  assert (Hi : state new_Game = IDLE) by reflexivity.
  assert (Hb : COST_TO_PLAY <= balance new_Game) by (simpl; constants; lra).
  assert (Hr : state (launched 5) = RUNNING) by (now rewrite launched_eq).
  assert (Hl : cashoutLocked (launched 5) = false) by (now rewrite launched_eq).
  destruct (balance_accounting new_Game (launched 5) 5 Hi Hb Hr Hl)
    as (_ & _ & H1 & _ & H2 & H3 & _).
  rewrite H1, H2, H3, launched_eq. simpl. constants.
  repeat split; lra.
Defined.

(** ** Frames of a running round *)

Lemma update_still_running (dt : R) (g : Game) :
  state g = RUNNING -> state (update dt g) = RUNNING ->
  update dt g = advanced dt g.
Proof.
  destruct g as [s b cm cr rt et cl kl h u]; simpl. intros ->.
  unfold update, advanced; simpl. fold (multiplierAt (rt + dt)).
  destruct (Rge_dec (multiplierAt (rt + dt)) cr) as [Hge | Hlt].
  - unfold crash; simpl. destruct kl; simpl.
    + reflexivity.
    + destruct (Rle_dec (1.6 - dt) 0); simpl; discriminate.
  - reflexivity.
Qed.

Lemma update_below_threshold (dt : R) (g : Game) :
  state g = RUNNING -> crashLocked g = false ->
  state (update dt g) = RUNNING ->
  multiplierAt (roundTime g + dt) < crashMultiplier g.
Proof.
  intros Hs Hl Hr.
  destruct (Rlt_dec (multiplierAt (roundTime g + dt)) (crashMultiplier g))
    as [Hlt | Hge]; [assumption | exfalso].
  rewrite update_crashing in Hr by (auto; lra).
  rewrite crash_running in Hr by (simpl; auto).
  destruct (Rle_dec (1.6 - dt) 0); simpl in Hr; discriminate.
Qed.

Lemma frames_stay_out (dts : list R) (g : Game) :
  state g <> RUNNING -> state (run g (map Frame dts)) <> RUNNING.
Proof.
  revert g. induction dts as [| dt dts IH]; intros g H; simpl.
  - assumption.
  - apply IH. destruct (state g) eqn:Hs; try congruence.
    + rewrite update_waiting by auto. congruence.
    + rewrite update_waiting by auto. congruence.
    + rewrite update_settled by (unfold settled; now rewrite Hs).
      destruct (Rle_dec (endTimer g - dt) 0); simpl; congruence.
    + rewrite update_settled by (unfold settled; now rewrite Hs).
      destruct (Rle_dec (endTimer g - dt) 0); simpl; congruence.
Qed.

Lemma frames_running (dts : list R) (g : Game) :
  state g = RUNNING -> state (run g (map Frame dts)) = RUNNING ->
  roundTime (run g (map Frame dts)) = roundTime g + total dts /\
  currentMultiplier (run g (map Frame dts)) =
    (match dts with
     | [] => currentMultiplier g
     | _ => multiplierAt (roundTime g + total dts)
     end).
Proof.
  revert g. induction dts as [| dt dts IH]; intros g Hs Hr; simpl in *.
  - split; [lra | reflexivity].
  - destruct (GameState_eqb (state (update dt g)) RUNNING) eqn:Hu.
    + apply GameState_eqb_eq in Hu.
      pose proof (update_still_running dt g Hs Hu) as E.
      destruct (IH (update dt g) Hu Hr) as [H1 H2].
      rewrite H1, H2, E. simpl. split; [lra |].
      destruct dts; simpl; [| f_equal; lra].
      f_equal; lra.
    + exfalso. apply (frames_stay_out dts (update dt g)); [| assumption].
      intros E; rewrite E in Hu; discriminate.
Qed.

(** C4. The live multiplier.  The growth constant is [ln 3.4 / 20]; in every
    state of the engine the multiplier shown is
    [min(MAX_MULTIPLIER, exp(GROWTH_K * roundTime))]; while the round keeps
    running, frames add their durations to [roundTime], so that after frames
    of total duration [t] the multiplier is the curve at the elapsed round
    time; the curve is 1 at time 0, non-decreasing, and 3.4 at time 20
    (exactly, in real arithmetic). *)
Theorem live_multiplier_curve (g : Game) (dts : list R) (t1 t2 : R) :
  reachable g -> state g = RUNNING ->
  state (run g (map Frame dts)) = RUNNING -> t1 <= t2 ->
  GROWTH_K = ln 3.4 / 20 /\
  currentMultiplier g = Rmin MAX_MULTIPLIER (exp (GROWTH_K * roundTime g)) /\
  roundTime (run g (map Frame dts)) = roundTime g + total dts /\
  currentMultiplier (run g (map Frame dts)) =
    Rmin MAX_MULTIPLIER (exp (GROWTH_K * (roundTime g + total dts))) /\
  multiplierAt 0 = 1 /\
  multiplierAt t1 <= multiplierAt t2 /\
  multiplierAt 20 = 3.4.
Proof.
  intros Hg Hs Hr Ht.
  pose proof (on_curve g (reachable_consistent g Hg)) as Hc.
  destruct (frames_running dts g Hs Hr) as [H1 H2].
  split; [reflexivity |].
  split; [exact Hc |].
  split; [exact H1 |].
  split.
  - rewrite H2. destruct dts; simpl; [| reflexivity].
    rewrite Rplus_0_r. exact Hc.
  - split; [apply multiplierAt_0 |].
    split; [now apply multiplierAt_mono | apply multiplierAt_target].
Qed.

Lemma live_multiplier_curve_witness :
  currentMultiplier (run (launched 5) (map Frame [ln 2 / GROWTH_K])) = 2 /\
  multiplierAt 1 <= multiplierAt 2.
Proof.
  assert (Hs : state (launched 5) = RUNNING) by (now rewrite launched_eq).
  assert (E : run (launched 5) (map Frame [ln 2 / GROWTH_K])
              = advanced (ln 2 / GROWTH_K) (launched 5)).
  { simpl. apply update_climbing; [assumption |].
    rewrite launched_eq; simpl. rewrite multiplierAt_ln; constants; lra. }
  assert (Hr : state (run (launched 5) (map Frame [ln 2 / GROWTH_K])) = RUNNING)
    by (now rewrite E).
  assert (Ht : 1 <= 2) by lra.
  destruct (live_multiplier_curve (launched 5) [ln 2 / GROWTH_K] 1 2
              (reachable_launched 5) Hs Hr Ht) as (_ & _ & _ & H & _ & Hm & _).
  split; [| exact Hm].
  rewrite H, launched_eq. simpl. rewrite Rplus_0_r.
  apply multiplierAt_ln; constants; lra.
Defined.

(** ** Crash against cash-out *)

(** C3. Crash wins within a frame.  When a frame brings the multiplier of a
    running round to the crash threshold or beyond, that call of [update]
    announces exactly one result, the loss, and credits nothing; the round
    is then in [CRASHED] (or already back in [IDLE] when the frame is as long
    as the 1.6 s display timer), and a cash-out request that comes after
    this frame leaves the object unchanged. *)
Theorem crash_wins_ties (g : Game) (dt : R) :
  reachable g -> state g = RUNNING ->
  Rmin MAX_MULTIPLIER (exp (GROWTH_K * (roundTime g + dt))) >= crashMultiplier g ->
  UI.settlements (ui (update dt g)) =
    UI.setLastResult COST_TO_PLAY UI.loss :: UI.settlements (ui g) /\
  balance (update dt g) = balance g /\
  (state (update dt g) = CRASHED \/ state (update dt g) = IDLE) /\
  (dt < 1.6 -> state (update dt g) = CRASHED) /\
  cashOut (update dt g) = update dt g.
Proof.
  intros Hg Hs Hge.
  destruct (locks_open g (reachable_consistent g Hg)) as [_ Hl]; [auto |].
  assert (E := update_crashing dt g Hs Hl Hge).
  rewrite crash_running in E by (simpl; auto).
  assert (Hst : (state (update dt g) = CRASHED \/ state (update dt g) = IDLE)
                /\ (dt < 1.6 -> state (update dt g) = CRASHED)).
  { rewrite E. destruct (Rle_dec (1.6 - dt) 0); simpl; split; auto.
    intros; lra. }
  destruct Hst as [Hst Hshort].
  repeat split; auto.
  - rewrite E. destruct (Rle_dec (1.6 - dt) 0); reflexivity.
  - rewrite E. destruct (Rle_dec (1.6 - dt) 0); reflexivity.
  - apply cashOut_rejected. destruct Hst as [-> | ->]; discriminate.
Qed.

Lemma crash_wins_ties_witness :
  state (update 0.1 (launched 1)) = CRASHED /\
  cashOut (update 0.1 (launched 1)) = update 0.1 (launched 1).
Proof.
  assert (Hs : state (launched 1) = RUNNING) by (now rewrite launched_eq).
  assert (Hge : Rmin MAX_MULTIPLIER (exp (GROWTH_K * (roundTime (launched 1) + 0.1)))
                >= crashMultiplier (launched 1)).
  { rewrite launched_eq; simpl. apply Rle_ge.
    apply (multiplierAt_ge_1 (0 + 0.1)). lra. }
  destruct (crash_wins_ties (launched 1) 0.1 (reachable_launched 1) Hs Hge)
    as (_ & _ & _ & Hc & Hn).
  split; [apply Hc; lra | exact Hn].
Defined.

(** ** The crash multiplier of a round *)

Lemma step_enters_running (g : Game) (e : event) :
  state g <> RUNNING -> state (step g e) = RUNNING ->
  exists c, e = Fetched c /\ state g = FETCHING_RNG /\
            crashMultiplier (step g e) = c.
Proof.
  intros Hn Hr. destruct e as [| c | | dt]; simpl in *.
  - exfalso. destruct (state g) eqn:Hs; try congruence;
      try (rewrite startRound_busy in Hr by congruence; congruence).
    destruct (Rlt_dec (balance g) COST_TO_PLAY).
    + rewrite startRound_rejected in Hr by assumption. simpl in Hr. congruence.
    + rewrite startRound_accepted in Hr by (auto; lra). discriminate.
  - destruct (GameState_eqb (state g) FETCHING_RNG) eqn:Hs.
    + apply GameState_eqb_eq in Hs. exists c.
      rewrite startRound_resume_fetching by assumption. auto.
    + rewrite startRound_resume_stale in Hr; [contradiction |].
      intros E; rewrite E in Hs; discriminate.
  - rewrite cashOut_rejected in Hr by assumption. contradiction.
  - exfalso. now apply (frames_stay_out [dt] g).
Qed.

Lemma step_keeps_threshold (g : Game) (e : event) :
  consistent g -> state g = RUNNING \/ settled g = true ->
  state (step g e) <> IDLE ->
  crashMultiplier (step g e) = crashMultiplier g.
Proof.
  intros Hc Hs Hn.
  assert (Hi : state g <> IDLE /\ state g <> FETCHING_RNG).
  { unfold settled in Hs. destruct (state g); simpl in Hs; split;
      destruct Hs; congruence. }
  destruct Hi as [Hi Hf].
  destruct e as [| c | | dt]; simpl in *.
  - now rewrite startRound_busy.
  - now rewrite startRound_resume_stale.
  - destruct (GameState_eqb (state g) RUNNING) eqn:Hr.
    + apply GameState_eqb_eq in Hr.
      destruct (locks_open g Hc) as [Hl _]; [auto |].
      apply (cashOut_running g Hr Hl).
    + rewrite cashOut_rejected; [reflexivity |].
      intros E; rewrite E in Hr; discriminate.
  - destruct (state g) eqn:Hst; try congruence.
    + destruct (locks_open g Hc) as [_ Hl]; [auto |].
      destruct (Rlt_dec (multiplierAt (roundTime g + dt)) (crashMultiplier g)).
      * now rewrite update_climbing.
      * rewrite update_crashing in * by (auto; lra).
        rewrite crash_running in * by (simpl; auto).
        destruct (Rle_dec (1.6 - dt) 0); simpl in *; congruence.
    + rewrite update_settled in * by (unfold settled; now rewrite Hst).
      destruct (Rle_dec (endTimer g - dt) 0); simpl in *; congruence.
    + rewrite update_settled in * by (unfold settled; now rewrite Hst).
      destruct (Rle_dec (endTimer g - dt) 0); simpl in *; congruence.
Qed.

Lemma step_keeps_placeholder (g : Game) (e : event) :
  consistent g -> state g = IDLE \/ state g = FETCHING_RNG ->
  state (step g e) <> RUNNING ->
  crashMultiplier g = MAX_MULTIPLIER /\
  crashMultiplier (step g e) = MAX_MULTIPLIER.
Proof.
  intros Hc Hs Hn. split; [now apply placeholder |].
  apply placeholder; [now apply consistent_step |].
  destruct e as [| c | | dt]; simpl in *.
  - destruct Hs as [Hs | Hs].
    + destruct (Rlt_dec (balance g) COST_TO_PLAY).
      * rewrite startRound_rejected by assumption. simpl. auto.
      * rewrite startRound_accepted by (auto; lra). simpl. auto.
    + rewrite startRound_busy by congruence. auto.
  - destruct Hs as [Hs | Hs].
    + rewrite startRound_resume_stale by congruence. auto.
    + rewrite startRound_resume_fetching in Hn by assumption.
      simpl in Hn. congruence.
  - rewrite cashOut_rejected by (destruct Hs; congruence). assumption.
  - now rewrite update_waiting.
Qed.

(** C6. The crash multiplier of a round.  [RUNNING] is entered only by the
    delivery of the draw, which stores it in the same step; until then the
    field holds its placeholder [MAX_MULTIPLIER], so the delivery is the one
    change of its value in the round; from [RUNNING] on it keeps that value
    as long as the round has not been reset to [IDLE].  And whenever a frame
    leaves the round running, the multiplier shown is strictly below the
    crash multiplier: the frame in which it would reach it crashes the
    round. *)
Theorem crash_multiplier_fixed (g : Game) (e : event) (dt : R) :
  reachable g ->
  (state g <> RUNNING -> state (step g e) = RUNNING ->
   exists c, e = Fetched c /\ state g = FETCHING_RNG /\
             crashMultiplier (step g e) = c) /\
  (state g = IDLE \/ state g = FETCHING_RNG -> state (step g e) <> RUNNING ->
   crashMultiplier g = MAX_MULTIPLIER /\
   crashMultiplier (step g e) = MAX_MULTIPLIER) /\
  (state g = RUNNING \/ settled g = true -> state (step g e) <> IDLE ->
   crashMultiplier (step g e) = crashMultiplier g) /\
  (state g = RUNNING -> state (update dt g) = RUNNING ->
   crashMultiplier (update dt g) = crashMultiplier g /\
   currentMultiplier (update dt g) < crashMultiplier (update dt g)).
Proof.
  intros Hg. pose proof (reachable_consistent g Hg) as Hc.
  split; [apply step_enters_running |].
  split; [now apply step_keeps_placeholder |].
  split; [now apply step_keeps_threshold |].
  intros Hs Hr.
  destruct (locks_open g Hc) as [_ Hl]; [auto |].
  pose proof (update_below_threshold dt g Hs Hl Hr) as Hlt.
  rewrite (update_still_running dt g Hs Hr). simpl. auto.
Qed.

Lemma crash_multiplier_fixed_witness :
  crashMultiplier (step (launched 5) CashOut) = 5.
Proof.
  destruct (crash_multiplier_fixed (launched 5) CashOut 0 (reachable_launched 5))
    as (_ & _ & H & _).
  rewrite H.
  - now rewrite launched_eq.
  - left. now rewrite launched_eq.
  - simpl.
    destruct (cashOut_running (launched 5)) as (-> & _);
      try (now rewrite launched_eq). discriminate.
Defined.

(** ** The entropy source *)

Lemma clampUint16_Int (z : Z) :
  clampUint16 (Int z) =
    Int (if (z <? 0)%Z then 0
         else if (z >? 65535)%Z then Z.rem z 65536 else z).
Proof.
  unfold clampUint16, MAX_UINT16. simpl.
  destruct (z <? 0)%Z; [reflexivity |].
  destruct (z >? 65535)%Z; reflexivity.
Qed.

Lemma clampUint16_range (z : Z) :
  exists r, clampUint16 (Int z) = Int r /\ (0 <= r <= 65535)%Z.
Proof.
  rewrite clampUint16_Int. eexists; split; [reflexivity |].
  destruct (z <? 0)%Z eqn:Hneg; [lia |].
  destruct (z >? 65535)%Z eqn:Hbig; [| lia].
  pose proof (Z.rem_bound_pos z 65536). lia.
Qed.

(** Without the finiteness test of [readOutshiftNumber], an infinity would
    leave [clampUint16] as [NaN]. *)
Lemma clampUint16_Infinity : clampUint16 (Infinity false) = NaN.
Proof. reflexivity. Qed.

Section EntropySourceFacts.

Context {platform : Platform}.

Lemma first_some_app {A : Type} (l1 l2 : list (option A)) (a : A) :
  Forall (fun o => o = None) l1 ->
  first_some (l1 ++ Some a :: l2) = Some a.
Proof.
  induction 1 as [| o l Ho Hl IH]; simpl; [reflexivity |].
  now rewrite Ho.
Qed.

Lemma first_some_inv {A : Type} (l : list (option A)) (a : A) :
  first_some l = Some a ->
  exists l1 l2, l = l1 ++ Some a :: l2 /\ Forall (fun o => o = None) l1.
Proof.
  induction l as [| [b |] l IH]; simpl; intros H.
  - discriminate.
  - injection H as ->. exists [], l. auto.
  - destruct (IH H) as (l1 & l2 & -> & Hl).
    exists (None :: l1), l2. auto.
Qed.

Lemma first_some_none {A : Type} (l : list (option A)) :
  first_some l = None <-> Forall (fun o => o = None) l.
Proof.
  induction l as [| [b |] l IH]; simpl; split; intros H; auto.
  - discriminate.
  - inversion H; discriminate.
  - constructor; [reflexivity | now apply IH].
  - inversion H; now apply IH.
Qed.

Lemma decodeValue_envelope (field : option string) (e : OutshiftEncoding) :
  decodeValue field e =
    match field with
    | None | Some EmptyString => None
    | Some s => envelope_decode e s
    end.
Proof.
  destruct field as [[| c s] |]; try destruct e; reflexivity.
Qed.

Lemma parsed_or_field (field : option string) (e : OutshiftEncoding)
      (radix : Z) (otherwise : option number) :
  parsed_or (decodeValue field e) radix otherwise =
    match field_number e field radix with
    | Some n => Some n
    | None => otherwise
    end.
Proof.
  rewrite decodeValue_envelope. unfold parsed_or, field_number.
  destruct field as [[| c s] |]; try reflexivity.
  destruct (envelope_decode e (String c s)); [| reflexivity].
  destruct (JS.isFinite (parseInt s0 radix)); reflexivity.
Qed.

Lemma field_number_finite (e : OutshiftEncoding) (field : option string)
      (radix : Z) (n : number) :
  field_number e field radix = Some n -> JS.isFinite n = true.
Proof.
  unfold field_number.
  destruct field as [[| c s] |]; try discriminate.
  destruct (envelope_decode e (String c s)); [| discriminate].
  destruct (JS.isFinite (parseInt s0 radix)) eqn:H; [| discriminate].
  now intros [= <-].
Qed.

Lemma readOutshiftNumber_refines (payload : RandomNumberResp) :
  readOutshiftNumber payload = spec_readOutshiftNumber payload.
Proof.
  unfold readOutshiftNumber, spec_readOutshiftNumber, first_record.
  destruct (random_numbers payload) as [[| entry l] |]; simpl; try reflexivity.
  rewrite !parsed_or_field.
  repeat match goal with
         | |- context [field_number ?e ?f ?r] =>
             destruct (field_number e f r); try reflexivity
         end.
Qed.

Lemma readOutshiftNumber_finite (payload : RandomNumberResp) (n : number) :
  readOutshiftNumber payload = Some n -> JS.isFinite n = true.
Proof.
  rewrite readOutshiftNumber_refines. unfold spec_readOutshiftNumber.
  destruct (first_record payload) as [entry |]; [| discriminate].
  intros H. apply first_some_inv in H. destruct H as (l1 & l2 & E & _).
  assert (Hin : In (Some n)
                   (map (fun '(field, radix) =>
                           field_number
                             match encoding payload with
                             | Some e => e
                             | None => base64
                             end field radix) (priority entry))).
  { rewrite E. apply in_or_app. right. now left. }
  apply in_map_iff in Hin. destruct Hin as ([field radix] & Hf & _).
  now apply field_number_finite in Hf.
Qed.

(** C9. Parsing the response.  [readOutshiftNumber] computes what the
    specification describes: on the first record of [random_numbers], with
    the envelope encoding of the response (base64 when none is given), the
    fields decimal, hexadecimal, binary and octal are taken in this order
    with radix 10, 16, 2 and 8; a field counts when it is present and not
    empty, its envelope decodes (base64: [atob] then [trim]; raw: [trim]
    only) and the decoded text parses to a finite number; the first field
    that counts gives the result, and the result is [null] when there is no
    record or no field counts.  Whatever is returned is finite. *)
Theorem readOutshiftNumber_priority (payload : RandomNumberResp) :
  readOutshiftNumber payload = spec_readOutshiftNumber payload /\
  (forall n, readOutshiftNumber payload = Some n -> JS.isFinite n = true) /\
  (first_record payload = None -> readOutshiftNumber payload = None) /\
  (forall entry e,
      first_record payload = Some entry ->
      e = match encoding payload with Some e => e | None => base64 end ->
      (forall n, readOutshiftNumber payload = Some n <->
         exists before field radix after,
           priority entry = before ++ (field, radix) :: after /\
           Forall (fun fr => field_number e (fst fr) (snd fr) = None) before /\
           field_number e field radix = Some n) /\
      (readOutshiftNumber payload = None <->
         Forall (fun fr => field_number e (fst fr) (snd fr) = None)
                (priority entry))).
Proof.
  split; [apply readOutshiftNumber_refines |].
  split; [apply readOutshiftNumber_finite |].
  rewrite readOutshiftNumber_refines. unfold spec_readOutshiftNumber.
  split; [now intros -> |].
  intros entry e -> ->.
  set (e := match encoding payload with Some e => e | None => base64 end).
  set (f := fun '(field, radix) => field_number e field radix).
  assert (Hf : forall fr, f fr = field_number e (fst fr) (snd fr))
    by (now intros [field radix]).
  split.
  - intros n; split.
    + intros H. apply first_some_inv in H.
      destruct H as (l1 & l2 & E & Hl1).
      apply map_eq_app in E. destruct E as (before & rest & E & <- & Hrest).
      destruct rest as [| [field radix] after]; [discriminate |].
      simpl in Hrest. injection Hrest as Hn _.
      exists before, field, radix, after. repeat split; auto.
      apply Forall_map in Hl1. revert Hl1. apply Forall_impl.
      intros fr. now rewrite Hf.
    + intros (before & field & radix & after & -> & Hb & Hn).
      rewrite map_app. simpl. rewrite Hn.
      apply first_some_app. apply Forall_map. revert Hb. apply Forall_impl.
      intros fr. now rewrite Hf.
  - rewrite first_some_none. rewrite Forall_map.
    split; apply Forall_impl; intros fr; now rewrite Hf.
Qed.

End EntropySourceFacts.

(** ** The crash multiplier as a function of the draw *)

Lemma Rdiv_lt_iff (a b x : R) : 0 < x -> (a / x < b <-> a < b * x).
Proof.
  intros Hx. split; intros H.
  - replace a with (a / x * x) by (field; lra).
    now apply Rmult_lt_compat_r.
  - apply Rmult_lt_reg_r with x; [assumption |].
    replace (a / x * x) with a by (field; lra). assumption.
Qed.

Lemma Rdiv_gt_iff (a b x : R) : 0 < x -> (b < a / x <-> b * x < a).
Proof.
  intros Hx. split; intros H.
  - replace a with (a / x * x) by (field; lra).
    now apply Rmult_lt_compat_r.
  - apply Rmult_lt_reg_r with x; [assumption |].
    replace (a / x * x) with a by (field; lra). assumption.
Qed.

Lemma draw_threshold_formula (r : Z) :
  (0 <= r)%Z ->
  (1 - HOUSE_EDGE) / ((IZR r + 1) / 65536) = 61603.84 / (IZR r + 1).
Proof.
  intros H. apply IZR_le in H. constants.
  replace 0.06 with (6 / 100) by lra.
  replace 61603.84 with (6160384 / 100) by lra.
  field. lra.
Qed.

Lemma draw_threshold (r : Z) :
  (0 <= r)%Z ->
  let c := Rmin MAX_MULTIPLIER ((1 - HOUSE_EDGE) / ((IZR r + 1) / 65536)) in
  0 < c /\ c <= MAX_MULTIPLIER /\
  ((r <= 65535)%Z -> 1 - HOUSE_EDGE <= c) /\
  (1 < c <-> (r <= 61602)%Z) /\
  (c < 1 <-> (61603 <= r)%Z) /\
  (c = MAX_MULTIPLIER <-> (r <= 2463)%Z).
Proof.
  intros H0 c. subst c. rewrite draw_threshold_formula by assumption.
  pose proof (IZR_le _ _ H0) as Hr.
  assert (Hx : 0 < IZR r + 1) by lra.
  pose proof (Rdiv_lt_iff 61603.84 1 _ Hx) as Hlt1.
  pose proof (Rdiv_gt_iff 61603.84 1 _ Hx) as Hgt1.
  pose proof (Rdiv_lt_iff 61603.84 25 _ Hx) as Hlt25.
  pose proof (Rdiv_gt_iff 61603.84 0 _ Hx) as Hgt0.
  pose proof (Rdiv_lt_iff 61603.84 0.94 _ Hx) as Hlt94.
  set (q := 61603.84 / (IZR r + 1)) in *.
  assert (Hq : 0 < q) by (apply Hgt0; lra).
  constants. unfold Rmin.
  destruct (Rle_dec 25 q) as [Hle | Hnle].
  - (* the cap applies *)
    assert (Hsmall : IZR r + 1 <= 2464.1536).
    { apply Rnot_lt_le; intros C.
      assert (q < 25) by (apply Hlt25; lra). lra. }
    assert (Hz : (r <= 2463)%Z).
    { destruct (Z_le_gt_dec r 2463) as [| Hgt]; [assumption |].
      assert (Hge : (2464 <= r)%Z) by lia. apply IZR_le in Hge. lra. }
    repeat split; intros; try lra; try lia.
  - assert (Hbig : 2464.1536 < IZR r + 1).
    { assert (Hq25 : q < 25) by lra. apply Hlt25 in Hq25. lra. }
    assert (Hz : (2464 <= r)%Z).
    { destruct (Z_le_gt_dec 2464 r) as [| Hgt]; [assumption |].
      assert (Hle : (r <= 2463)%Z) by lia. apply IZR_le in Hle. lra. }
    split; [assumption |]. split; [lra |].
    split.
    { intros H. apply IZR_le in H. apply Rnot_lt_le. intros C.
      assert (C' : q < 0.94) by lra. apply Hlt94 in C'. lra. }
    split; [| split].
    + split; intros H.
      * apply Hgt1 in H.
        destruct (Z_le_gt_dec r 61602) as [| Hgt]; [assumption |].
        assert (Hge : (61603 <= r)%Z) by lia. apply IZR_le in Hge. lra.
      * apply IZR_le in H. apply Hgt1. lra.
    + split; intros H.
      * apply Hlt1 in H.
        destruct (Z_le_gt_dec 61603 r) as [| Hgt]; [assumption |].
        assert (Hle : (r <= 61602)%Z) by lia. apply IZR_le in Hle. lra.
      * apply IZR_le in H. apply Hlt1. lra.
    + split; intros H; [lra | lia].
Qed.

Section EntropyDraw.

Context {platform : Platform}.

Lemma remote_draw_failure (w : World) :
  remote_failure w -> remote_draw w = thrown.
Proof.
  unfold remote_draw.
  intros [H | resp H Hok | resp H Hj | resp data H Hj Hn]; rewrite H; simpl.
  - reflexivity.
  - now rewrite Hok.
  - destruct (ok resp); simpl; [now rewrite Hj | reflexivity].
  - destruct (ok resp); simpl; [| reflexivity].
    rewrite Hj; simpl. now rewrite Hn.
Qed.

Lemma remote_draw_success (w : World) (v : number) :
  remote_success w v -> remote_draw w = normal v.
Proof.
  intros (resp & data & H & Hok & Hj & Hv). unfold remote_draw.
  rewrite H; simpl. rewrite Hok; simpl. rewrite Hj; simpl. now rewrite Hv.
Qed.

Lemma remote_draw_cases (w : World) :
  remote_failure w \/ exists v, remote_success w v.
Proof.
  destruct (fetch w) as [resp |] eqn:H; [| left; now apply fetch_rejected].
  destruct (ok resp) eqn:Hok; [| left; now apply bad_status with resp].
  destruct (json resp) as [data |] eqn:Hj;
    [| left; now apply body_unparsable with resp].
  destruct (readOutshiftNumber data) as [v |] eqn:Hv;
    [| left; now apply no_field with resp data].
  right. exists v, resp, data. auto.
Qed.

Lemma getUint16_fallback (w : World) (this : RNG) :
  SHOULD_USE_QRNG w = false \/ remote_failure w ->
  getUint16 w this = (Int (getRandomValues w), mkRNG false).
Proof.
  unfold getUint16. intros [H | H].
  - now rewrite H.
  - rewrite (remote_draw_failure w H). now destruct (SHOULD_USE_QRNG w).
Qed.

Lemma getUint16_remote (w : World) (this : RNG) (v : number) :
  SHOULD_USE_QRNG w = true -> remote_success w v ->
  getUint16 w this = (clampUint16 v, mkRNG true).
Proof.
  intros H Hv. unfold getUint16. rewrite H; simpl.
  now rewrite (remote_draw_success w v Hv).
Qed.

Lemma remote_success_finite (w : World) (v : number) :
  remote_success w v -> JS.isFinite v = true.
Proof.
  intros (resp & data & _ & _ & _ & Hv).
  now apply readOutshiftNumber_finite in Hv.
Qed.

Lemma getUint16_range (w : World) (this : RNG) :
  (0 <= getRandomValues w <= 65535)%Z ->
  exists r, fst (getUint16 w this) = Int r /\ (0 <= r <= 65535)%Z.
Proof.
  intros Hfb.
  destruct (SHOULD_USE_QRNG w) eqn:Hq.
  - destruct (remote_draw_cases w) as [Hf | (v & Hv)].
    + rewrite getUint16_fallback by auto. now exists (getRandomValues w).
    + rewrite (getUint16_remote w this v Hq Hv). simpl.
      pose proof (remote_success_finite w v Hv) as Hfin.
      destruct v as [| neg | z]; try discriminate.
      apply clampUint16_range.
  - rewrite getUint16_fallback by auto. now exists (getRandomValues w).
Qed.

Lemma getCrashMultiplier_draw (w : World) (this : RNG) (r : Z) :
  fst (getUint16 w this) = Int r ->
  getCrashMultiplier w this =
    (Some (Rmin MAX_MULTIPLIER ((1 - HOUSE_EDGE) / ((IZR r + 1) / 65536))),
     snd (getUint16 w this)).
Proof.
  unfold getCrashMultiplier. destruct (getUint16 w this) as [n rng]; simpl.
  now intros ->.
Qed.

(** C5. The draw never fails.  Whatever the network does, [getUint16]
    returns an integer between 0 and 65535 (the local generator fills a
    16-bit cell).  When the remote source is disabled, the fetch is
    rejected, the status is not a success, the body does not parse or holds
    no usable field, the result is the locally generated value and
    [isQuantum] is [false]; no case is left in which the call throws.  When
    the remote path succeeds the result is the clamped remote value and
    [isQuantum] is [true]. *)
Theorem getUint16_never_fails (w : World) (this : RNG) :
  (0 <= getRandomValues w <= 65535)%Z ->
  (exists r, fst (getUint16 w this) = Int r /\ (0 <= r <= 65535)%Z) /\
  (remote_failure w \/ exists v, remote_success w v) /\
  (SHOULD_USE_QRNG w = false \/ remote_failure w ->
   getUint16 w this = (Int (getRandomValues w), mkRNG false)) /\
  (forall v, SHOULD_USE_QRNG w = true -> remote_success w v ->
             getUint16 w this = (clampUint16 v, mkRNG true)).
Proof.
  intros Hfb.
  split; [now apply getUint16_range |].
  split; [apply remote_draw_cases |].
  split; [apply getUint16_fallback |].
  intros v. apply getUint16_remote.
Qed.

(** C2, as the code has it.  For every draw [R] between 0 and 65535 the
    crash multiplier is [min(MAX_MULTIPLIER, (1 - h) / ((R + 1) / 65536))]
    with [h = 0.06] and [MAX_MULTIPLIER = 25]; it lies between [1 - h] and
    [MAX_MULTIPLIER], both included, and it is above 1 exactly when
    [R <= 61602]. *)
Theorem crash_multiplier_range (w : World) (this : RNG) :
  (0 <= getRandomValues w <= 65535)%Z ->
  exists r c,
    fst (getUint16 w this) = Int r /\ (0 <= r <= 65535)%Z /\
    fst (getCrashMultiplier w this) = Some c /\
    c = Rmin 25 ((1 - 0.06) / ((IZR r + 1) / 65536)) /\
    1 - HOUSE_EDGE <= c <= MAX_MULTIPLIER /\
    (1 < c <-> (r <= 61602)%Z).
Proof.
  intros Hfb.
  destruct (getUint16_range w this Hfb) as (r & Hr & Hrange).
  exists r. eexists.
  rewrite (getCrashMultiplier_draw w this r Hr). simpl.
  destruct (draw_threshold r) as (_ & Hmax & Hmin & Hone & _); [lia |].
  repeat split; auto; try lia.
  - now apply Hmin.
  - apply Hone.
  - apply Hone.
Qed.

End EntropyDraw.

(** ** A crash multiplier below 1 *)

Lemma first_frame_crashes (g : Game) (dt : R) :
  state g = RUNNING -> crashLocked g = false -> roundTime g = 0 ->
  crashMultiplier g < 1 -> 0 <= dt ->
  UI.settlements (ui (update dt g)) =
    UI.setLastResult COST_TO_PLAY UI.loss :: UI.settlements (ui g) /\
  (state (update dt g) = CRASHED \/ state (update dt g) = IDLE) /\
  (dt < 1.6 -> state (update dt g) = CRASHED).
Proof.
  intros Hs Hl Ht Hc Hdt.
  assert (Hge : multiplierAt (roundTime g + dt) >= crashMultiplier g).
  { pose proof (multiplierAt_ge_1 (roundTime g + dt)). lra. }
  rewrite (update_crashing dt g Hs Hl Hge).
  rewrite crash_running by (simpl; auto).
  destruct (Rle_dec (1.6 - dt) 0); simpl; repeat split; auto.
  intros; lra.
Qed.

Lemma running_means_untouched (es : list event) (g : Game) :
  state g = RUNNING -> crashLocked g = false -> cashoutLocked g = false ->
  roundTime g = 0 -> crashMultiplier g < 1 ->
  same_round es -> Forall forward es ->
  state (run g es) = RUNNING -> run g es = g.
Proof.
  intros Hs Hl Hco Ht Hc Hes Hfw.
  induction es as [| e es IH]; intros Hr; simpl in *.
  - reflexivity.
  - inversion Hes as [| ? ? He Hes']; subst.
    inversion Hfw as [| ? ? Hf Hfw']; subst.
    assert (Hout : forall g', (state g' = CASHED_OUT \/ state g' = CRASHED
                                \/ state g' = IDLE) ->
                              state (run g' es) <> RUNNING).
    { intros g' Hg'.
      destruct (quiet_run es g') as (_ & _ & _ & [E | E]); auto;
        try (intros C; rewrite E in C);
        destruct Hg' as [Hg' | [Hg' | Hg']]; congruence. }
    destruct e as [| c | | dt]; simpl in *.
    + discriminate.
    + rewrite startRound_resume_stale in * by congruence. auto.
    + exfalso. apply (Hout (cashOut g)); [| assumption].
      left. apply (cashOut_running g Hs Hco).
    + exfalso. apply (Hout (update dt g)); [| assumption].
      destruct (first_frame_crashes g dt Hs Hl Ht Hc Hf) as (_ & [E | E] & _);
        auto.
Qed.

Section InstantCrash.

Context {platform : Platform}.

(** C10. A draw of 61603 or more.  For such a draw [R] the quotient
    [(1 - 0.06) * 65536 / (R + 1)] is at most 1 and [getCrashMultiplier]
    returns a threshold strictly below 1; these draws are 3933 of the 65536,
    about 6 %.  The round that receives this threshold enters [RUNNING] with
    the multiplier at 1, and its first frame (of any duration [dt >= 0])
    announces the loss and leaves [RUNNING]: the state is [CRASHED], or
    [IDLE] when the frame lasts 1.6 s or more.  Whatever requests and frames
    follow the delivery without a new round being started, a cash-out is
    either without effect or pays at multiplier exactly 1. *)
Theorem sub_one_threshold_crashes_at_once
        (w : World) (this : RNG) (r : Z) (g : Game) (dt : R) (es : list event) :
  fst (getUint16 w this) = Int r -> (61603 <= r)%Z ->
  reachable g -> state g = FETCHING_RNG -> 0 <= dt ->
  same_round es -> Forall forward es ->
  (1 - HOUSE_EDGE) * 65536 / (IZR r + 1) <= 1 /\
  0.06 <= IZR (65535 - 61603 + 1) / 65536 <= 0.0601 /\
  exists c,
    fst (getCrashMultiplier w this) = Some c /\ c < 1 /\
    state (startRound_resume c g) = RUNNING /\
    crashMultiplier (startRound_resume c g) = c /\
    currentMultiplier (startRound_resume c g) = 1 /\
    UI.settlements (ui (update dt (startRound_resume c g))) =
      UI.setLastResult COST_TO_PLAY UI.loss
      :: UI.settlements (ui (startRound_resume c g)) /\
    (state (update dt (startRound_resume c g)) = CRASHED \/
     state (update dt (startRound_resume c g)) = IDLE) /\
    (dt < 1.6 -> state (update dt (startRound_resume c g)) = CRASHED) /\
    (cashOut (run (startRound_resume c g) es) = run (startRound_resume c g) es \/
     currentMultiplier (run (startRound_resume c g) es) = 1 /\
     balance (cashOut (run (startRound_resume c g) es)) =
       balance (run (startRound_resume c g) es) + COST_TO_PLAY * 1).
Proof.
  intros Hr Hbig Hg Hs Hdt Hes Hfw.
  pose proof (reachable_consistent g Hg) as Hc.
  destruct (draw_threshold r) as (_ & _ & _ & _ & Hlow & _); [lia |].
  split.
  { pose proof (IZR_le _ _ Hbig) as Hx.
    assert (Hpos : 0 < IZR r + 1) by lra.
    apply Rnot_lt_le. intros C.
    apply (Rdiv_gt_iff ((1 - HOUSE_EDGE) * 65536) 1 _ Hpos) in C.
    constants. lra. }
  split; [simpl; lra |].
  eexists. rewrite (getCrashMultiplier_draw w this r Hr). simpl.
  split; [reflexivity |].
  set (c := Rmin MAX_MULTIPLIER ((1 - HOUSE_EDGE) / ((IZR r + 1) / 65536))) in *.
  assert (Hc1 : c < 1) by (now apply Hlow).
  split; [assumption |].
  destruct (locks_open g Hc) as [Hco Hcr]; [auto |].
  pose proof (at_rest g Hc (or_intror Hs)) as Ht.
  pose proof (on_curve g Hc) as Hcurve.
  rewrite Ht, multiplierAt_0 in Hcurve.
  set (g1 := startRound_resume c g).
  assert (E : g1 = mkGame RUNNING (balance g) (currentMultiplier g) c
                          (roundTime g) (endTimer g) (cashoutLocked g)
                          (crashLocked g) (history g)
                          (UI.setState RUNNING :: ui g))
    by (now apply startRound_resume_fetching).
  assert (H1 : state g1 = RUNNING) by (now rewrite E).
  assert (H2 : crashMultiplier g1 = c) by (now rewrite E).
  assert (H3 : currentMultiplier g1 = 1) by (now rewrite E).
  assert (H4 : crashLocked g1 = false) by (now rewrite E).
  assert (H5 : cashoutLocked g1 = false) by (now rewrite E).
  assert (H6 : roundTime g1 = 0) by (now rewrite E).
  assert (H7 : crashMultiplier g1 < 1) by (now rewrite H2).
  destruct (first_frame_crashes g1 dt H1 H4 H6 H7 Hdt) as (F1 & F2 & F3).
  do 6 (split; [assumption |]).
  destruct (GameState_eqb (state (run g1 es)) RUNNING) eqn:Hrun.
  - apply GameState_eqb_eq in Hrun.
    rewrite (running_means_untouched es g1 H1 H4 H5 H6 H7 Hes Hfw Hrun).
    right. split; [assumption |].
    destruct (cashOut_running g1 H1 H5) as (_ & -> & _). now rewrite H3.
  - left. apply cashOut_rejected. intros C. rewrite C in Hrun. discriminate.
Qed.

End InstantCrash.

(** ** The properties at concrete inputs (reference platform) *)

Lemma readOutshiftNumber_priority_witness :
  readOutshiftNumber (platform := Browser.platform)
    (mkResp None (Some [mkField (Some "101"%string) (Some "17"%string) (Some "eHl6"%string) (Some "ZmY="%string)]))
  = Some (Int 255).
Proof.
  destruct (readOutshiftNumber_priority (platform := Browser.platform)
              (mkResp None (Some [mkField (Some "101"%string) (Some "17"%string)
                                          (Some "eHl6"%string) (Some "ZmY="%string)])))
    as (-> & _).
  reflexivity.
Defined.

Lemma getUint16_never_fails_witness :
  (0 <= getRandomValues (offline 7) <= 65535)%Z /\
  getUint16 (platform := Browser.platform) (offline 7) (mkRNG true)
  = (Int 7, mkRNG false).
Proof.
  assert (Hfb : (0 <= getRandomValues (offline 7) <= 65535)%Z) by (simpl; lia).
  split; [exact Hfb |].
  destruct (getUint16_never_fails (platform := Browser.platform)
              (offline 7) (mkRNG true) Hfb) as (_ & _ & H & _).
  apply H. right. now apply fetch_rejected.
Defined.

Lemma crash_multiplier_range_witness :
  (0 <= getRandomValues (offline 0) <= 65535)%Z /\
  exists r c,
    fst (getUint16 (platform := Browser.platform) (offline 0) (mkRNG false))
    = Int r /\
    fst (getCrashMultiplier (platform := Browser.platform) (offline 0) (mkRNG false))
    = Some c /\
    1 - HOUSE_EDGE <= c <= MAX_MULTIPLIER.
Proof.
  assert (Hfb : (0 <= getRandomValues (offline 0) <= 65535)%Z) by (simpl; lia).
  split; [exact Hfb |].
  destruct (crash_multiplier_range (platform := Browser.platform)
              (offline 0) (mkRNG false) Hfb)
    as (r & c & Hr & _ & Hc & _ & Hb & _).
  exists r, c. auto.
Defined.

(** C2, as the specification states it, fails at the draw 65535: the crash
    multiplier is 0.94, outside the interval from 1 (excluded) to
    [MAX_MULTIPLIER]. *)
Lemma crash_multiplier_below_one :
  fst (getUint16 (platform := Browser.platform) (offline 65535) (mkRNG false))
  = Int 65535 /\
  fst (getCrashMultiplier (platform := Browser.platform) (offline 65535) (mkRNG false))
  = Some 0.94 /\
  ~ (1 < 0.94 <= MAX_MULTIPLIER).
Proof.
  split; [reflexivity |].
  split; [| lra].
  unfold getCrashMultiplier, getUint16; simpl. f_equal.
  replace ((1 - HOUSE_EDGE) / ((65535 + 1) / 65536)) with 0.94
    by (constants; lra).
  apply Rmin_right. constants; lra.
Qed.

Lemma sub_one_threshold_crashes_at_once_witness :
  exists c,
    fst (getCrashMultiplier (platform := Browser.platform)
           (offline 65535) (mkRNG false)) = Some c /\
    c < 1 /\
    state (update 0.1 (startRound_resume c (startRound new_Game))) = CRASHED.
Proof.
  assert (Hr : fst (getUint16 (platform := Browser.platform)
                      (offline 65535) (mkRNG false)) = Int 65535)
    by reflexivity.
  assert (Hbig : (61603 <= 65535)%Z) by lia.
  assert (Hg : reachable (startRound new_Game))
    by (apply (reachable_step new_Game Play), reachable_new).
  assert (Hs : state (startRound new_Game) = FETCHING_RNG).
  { rewrite startRound_accepted; simpl; auto. constants; lra. }
  assert (Hdt : 0 <= 0.1) by lra.
  assert (Hes : same_round [CashOut]) by (repeat constructor).
  assert (Hfw : Forall forward [CashOut]) by (repeat constructor).
  destruct (sub_one_threshold_crashes_at_once (platform := Browser.platform)
              (offline 65535) (mkRNG false) 65535 (startRound new_Game) 0.1
              [CashOut] Hr Hbig Hg Hs Hdt Hes Hfw)
    as (_ & _ & c & H1 & H2 & _ & _ & _ & _ & _ & H3 & _).
  exists c. repeat split; auto. apply H3. lra.
Defined.

(** The remote path on a base64 response whose decimal field reads 70000:
    the value is wrapped into 16 bits and the draw is flagged as quantum. *)
Example remote_draw_wraps :
  getUint16 (platform := Browser.platform)
    (answering (mkField None None (Some "NzAwMDA="%string) None) 7) (mkRNG false)
  = (Int 4464, mkRNG true).
Proof. reflexivity. Qed.

(** A body without a usable field falls back to the local draw. *)
Example remote_draw_without_field :
  getUint16 (platform := Browser.platform)
    (answering (mkField None None (Some "eHl6"%string) (Some ""%string)) 7) (mkRNG true)
  = (Int 7, mkRNG false).
Proof. reflexivity. Qed.

(** With a threshold below 1 the round can still be cashed out between the
    delivery and the first frame, at multiplier 1: the wager is returned. *)
Example cash_out_before_first_frame :
  state (cashOut (launched 0.94)) = CASHED_OUT /\
  balance (cashOut (launched 0.94)) = START_BALANCE.
Proof.
  destruct (cashOut_running (launched 0.94)) as (-> & -> & _);
    try (now rewrite launched_eq).
  rewrite launched_eq; simpl. split; [reflexivity | constants; lra].
Qed.

(** ** The crash multiplier in binary64, at the draws where it turns

    The roundings of binary64 do not move the draws at which the value of
    [getCrashMultiplier] leaves the cap and falls below 1: it is 25 up to
    the draw 2463 and less from 2464 on, above 1 at 61602, below 1 from
    61603 on, and the double nearest to 0.94 at 65535. *)

Example binary64_cap :
  map (fun r => PrimFloat.ltb (Binary64.getCrashMultiplier r) 25%float)
      [0; 2463; 2464]%Z
  = [false; false; true].
Proof. vm_compute. reflexivity. Qed.

Example binary64_below_one :
  map (fun r => PrimFloat.ltb (Binary64.getCrashMultiplier r) 1%float)
      [0; 61602; 61603; 65535]%Z
  = [false; false; true; true].
Proof. vm_compute. reflexivity. Qed.

Example binary64_above_one :
  map (fun r => PrimFloat.ltb 1%float (Binary64.getCrashMultiplier r))
      [0; 61602; 61603; 65535]%Z
  = [true; true; false; false].
Proof. vm_compute. reflexivity. Qed.

Example binary64_last_draw :
  PrimFloat.eqb (Binary64.getCrashMultiplier 65535) 0.94%float = true.
Proof. vm_compute. reflexivity. Qed.
(** * Further properties of the engine *)

(** ** One step, field by field *)

Ltac step_cases g e :=
  destruct g as [s b cm cr rt et cl kl h u];
  destruct e as [| c | | dt]; destruct s; simpl;
  unfold update; simpl;
  unfold startRound, startRound_resume, cashOut, crash; simpl;
  repeat match goal with
         | |- context [Rlt_dec ?x ?y] => destruct (Rlt_dec x y); simpl
         | |- context [Rge_dec ?x ?y] => destruct (Rge_dec x y); simpl
         | |- context [Rle_dec ?x ?y] => destruct (Rle_dec x y); simpl
         | |- context [if ?k then _ else _] => is_var k; destruct k; simpl
         end.

Lemma step_ui_state (g : Game) (e : event) :
  ui_state (ui g) = state g -> ui_state (ui (step g e)) = state (step g e).
Proof. step_cases g e; auto. Qed.

Lemma step_ui_balance (g : Game) (e : event) :
  ui_balance (ui g) = Some (balance g) ->
  ui_balance (ui (step g e)) = Some (balance (step g e)).
Proof. step_cases g e; auto. Qed.

Lemma step_ui_history (g : Game) (e : event) :
  ui_history (ui g) = Some (history g) ->
  ui_history (ui (step g e)) = Some (history (step g e)).
Proof. step_cases g e; auto. Qed.

Lemma ui_state_in_step (g : Game) :
  reachable g -> ui_state (ui g) = state g.
Proof. induction 1; auto using step_ui_state. Qed.

(** X1. The UI is in step with the engine: in every state the engine can
    reach, the state the UI holds (the one its click listener tests), the
    balance it shows and the history it shows are those of the engine. *)
Theorem ui_in_step (g : Game) :
  reachable g ->
  ui_state (ui g) = state g /\
  ui_balance (ui g) = Some (balance g) /\
  ui_history (ui g) = Some (history g).
Proof.
  induction 1 as [| g e Hg (IHs & IHb & IHh)].
  - repeat split; reflexivity.
  - auto using step_ui_state, step_ui_balance, step_ui_history.
Qed.

Lemma ui_in_step_witness :
  ui_state (ui (launched 5)) = RUNNING /\
  ui_balance (ui (launched 5)) = Some (balance (launched 5)).
Proof.
  destruct (ui_in_step (launched 5) (reachable_launched 5)) as (Hs & Hb & _).
  rewrite Hs, Hb. now rewrite launched_eq.
Defined.

Lemma keydown_Space_cashOut (g : Game) : keydown_Space g = cashOut g.
Proof.
  unfold keydown_Space.
  destruct (GameState_eqb (state g) RUNNING) eqn:E; [reflexivity |].
  symmetry. apply cashOut_rejected. intros C. rewrite C in E. discriminate.
Qed.

(** X2. The play button.  In every reachable state a click does nothing
    while the button is disabled (fetching, cashed out, crashed); while the
    round is running it is the cash-out, which settles the round; in
    [IDLE] it is the start request.  The space key is the cash-out in
    every state. *)
Theorem click_dispatch (g : Game) :
  reachable g ->
  (playBtn_disabled (state g) = true -> click g = g) /\
  (state g = RUNNING -> click g = cashOut g /\ state (click g) = CASHED_OUT) /\
  (state g = IDLE -> click g = startRound g) /\
  keydown_Space g = cashOut g.
Proof.
  intros Hg. pose proof (ui_state_in_step g Hg) as Hs.
  pose proof (reachable_consistent g Hg) as Hc.
  unfold click. rewrite Hs.
  split; [| split; [| split]].
  - destruct (state g); simpl; intros; try discriminate; reflexivity.
  - intros E. rewrite E. simpl. split; [reflexivity |].
    destruct (locks_open g Hc) as [Hl _]; [auto |].
    apply (cashOut_running g E Hl).
  - intros E. now rewrite E.
  - apply keydown_Space_cashOut.
Qed.

Lemma click_dispatch_witness :
  state (click (launched 5)) = CASHED_OUT.
Proof.
  destruct (click_dispatch (launched 5) (reachable_launched 5)) as (_ & H & _).
  apply H. now rewrite launched_eq.
Defined.

(** X3. The state machine.  A step of a reachable state only makes the moves
    of [allowed]: [IDLE] to [FETCHING_RNG] on a start request (or no move
    when it is rejected), [FETCHING_RNG] to [RUNNING] on the delivery,
    [RUNNING] to [CASHED_OUT] on a cash-out, [RUNNING] to [CRASHED] (or
    straight to [IDLE]) on a frame, a settled state to [IDLE] on a frame;
    any other event leaves the state where it is. *)
Theorem only_allowed_moves (g : Game) (e : event) :
  reachable g -> allowed (state g) e (state (step g e)) = true.
Proof.
  intros Hg.
  pose proof (locks_open g (reachable_consistent g Hg)) as Hl.
  revert Hl. step_cases g e; intros Hl; try reflexivity;
    destruct Hl as [Hl Hl']; auto; discriminate.
Qed.

Lemma only_allowed_moves_witness :
  allowed RUNNING CashOut (state (step (launched 5) CashOut)) = true.
Proof.
  pose proof (only_allowed_moves (launched 5) CashOut (reachable_launched 5)) as H.
  rewrite launched_eq in H at 1. exact H.
Defined.

(** ** Balance and history *)

Lemma multiplierAt_pos (t : R) : 0 < multiplierAt t.
Proof.
  unfold multiplierAt. apply Rmin_glb_lt; [constants; lra | apply exp_pos].
Qed.

Lemma step_balance (g : Game) (e : event) :
  consistent g ->
  balance (step g e) = balance g \/
  (e = Play /\ state g = IDLE /\ COST_TO_PLAY <= balance g /\
   balance (step g e) = balance g - COST_TO_PLAY) \/
  (e = CashOut /\ state g = RUNNING /\
   balance (step g e) = balance g + COST_TO_PLAY * currentMultiplier g).
Proof.
  intros Hc. pose proof (locks_open g Hc) as Hl. revert Hl.
  step_cases g e; intros Hl; auto;
    try (right; left; repeat split; auto; lra);
    destruct Hl as [Hl Hl']; auto; discriminate.
Qed.

(** X4. The balance.  One step changes the balance in two ways only: an
    accepted start takes the wager off, a cash-out adds the wager times the
    multiplier shown, which is more than 0 and at most 250.  The balance of
    a reachable state is never negative. *)
Theorem balance_never_negative (g : Game) (e : event) :
  reachable g ->
  0 <= balance g /\
  (balance (step g e) = balance g \/
   (e = Play /\ state g = IDLE /\ COST_TO_PLAY <= balance g /\
    balance (step g e) = balance g - COST_TO_PLAY) \/
   (e = CashOut /\ state g = RUNNING /\
    balance (step g e) = balance g + COST_TO_PLAY * currentMultiplier g /\
    0 < COST_TO_PLAY * currentMultiplier g <= COST_TO_PLAY * MAX_MULTIPLIER)).
Proof.
  intros Hg. split.
  - induction Hg as [| g' e' Hg' IH]; [simpl; constants; lra |].
    pose proof (reachable_consistent g' Hg') as Hc.
    destruct (step_balance g' e' Hc) as [-> | [(_ & _ & Hb & ->) | (_ & _ & ->)]].
    + assumption.
    + lra.
    + rewrite (on_curve g' Hc). pose proof (multiplierAt_pos (roundTime g')).
      constants. nra.
  - pose proof (reachable_consistent g Hg) as Hc.
    destruct (step_balance g e Hc) as [H | [H | (He & Hs & Hb)]]; auto.
    right; right. repeat split; auto; rewrite (on_curve g Hc).
    + pose proof (multiplierAt_pos (roundTime g)). constants. nra.
    + pose proof (multiplierAt_le_max (roundTime g)). constants. nra.
Qed.

Lemma balance_never_negative_witness :
  0 <= balance (step (launched 5) CashOut).
Proof.
  apply (balance_never_negative (step (launched 5) CashOut) CashOut).
  apply reachable_step, reachable_launched.
Defined.

Lemma step_history (g : Game) (e : event) :
  history (step g e) = history g \/
  exists c h,
    history (step g e) = firstn 12 (mkEntry (Rmin MAX_MULTIPLIER c) h :: history g).
Proof.
  step_cases g e; auto; right; eauto.
Qed.

Lemma Forall_firstn_keep {A : Type} (P : A -> Prop) (n : nat) (l : list A) :
  Forall P l -> Forall P (firstn n l).
Proof.
  intros H. revert n. induction H as [| a l Ha Hl IH]; intros [| n]; simpl;
    constructor; auto.
Qed.

(** X5. The history.  In every reachable state the history holds at most 12
    entries and none of its values exceeds [MAX_MULTIPLIER]; a step leaves
    it as it is or puts one entry in front and drops what comes after the
    twelfth. *)
Theorem history_bounded (g : Game) (e : event) :
  reachable g ->
  (List.length (history g) <= 12)%nat /\
  Forall (fun entry => value entry <= MAX_MULTIPLIER) (history g) /\
  (history (step g e) = history g \/
   exists c h,
     history (step g e)
     = firstn 12 (mkEntry (Rmin MAX_MULTIPLIER c) h :: history g)).
Proof.
  intros Hg. split; [| split; [| apply step_history]].
  - induction Hg as [| g' e' Hg' IH]; [simpl; lia |].
    destruct (step_history g' e') as [-> | (c & h & ->)]; [assumption |].
    apply firstn_le_length.
  - induction Hg as [| g' e' Hg' IH]; [constructor |].
    destruct (step_history g' e') as [-> | (c & h & ->)]; [assumption |].
    apply Forall_firstn_keep. constructor; [apply Rmin_l | assumption].
Qed.

Lemma history_bounded_witness :
  (List.length (history (step (launched 5) CashOut)) <= 12)%nat.
Proof.
  apply (history_bounded (step (launched 5) CashOut) CashOut).
  apply reachable_step, reachable_launched.
Defined.

(** ** The display timer and the end of a round *)



Lemma total_nonneg (dts : list R) :
  Forall (fun dt => 0 <= dt) dts -> 0 <= total dts.
Proof. induction 1; simpl; lra. Qed.








(** * Further properties of the entropy source *)

(** X8. [clampUint16] on every number.  A negative number, [NaN] and
    [-Infinity] give 0; a non-negative integer is reduced modulo 65536, so a
    value that is already in the range is returned as it is, and clamping
    twice is clamping once; [+Infinity] is the one input that is not brought
    into the range: it gives [NaN]. *)
Theorem clampUint16_cases (v : number) (z : Z) :
  clampUint16 (Int z) = Int (if (z <? 0)%Z then 0 else z mod 65536) /\
  ((0 <= z <= 65535)%Z -> clampUint16 (Int z) = Int z) /\
  clampUint16 (clampUint16 (Int z)) = clampUint16 (Int z) /\
  clampUint16 NaN = Int 0 /\
  clampUint16 (Infinity true) = Int 0 /\
  (clampUint16 v = NaN <-> v = Infinity false).
Proof.
  assert (H1 : clampUint16 (Int z)
               = Int (if (z <? 0)%Z then 0 else z mod 65536)).
  { rewrite clampUint16_Int.
    destruct (z <? 0)%Z eqn:Hneg; [reflexivity |].
    apply Z.ltb_ge in Hneg.
    destruct (z >? 65535)%Z eqn:Hbig.
    - now rewrite Z.rem_mod_nonneg by lia.
    - rewrite Z.mod_small; [reflexivity |].
      pose proof (Zgt_cases z 65535) as C. rewrite Hbig in C. lia. }
  assert (H2 : (0 <= z <= 65535)%Z -> clampUint16 (Int z) = Int z).
  { intros Hz. rewrite H1.
    destruct (z <? 0)%Z eqn:Hneg; [apply Z.ltb_lt in Hneg; lia |].
    now rewrite Z.mod_small by lia. }
  split; [exact H1 |]. split; [exact H2 |].
  split.
  { destruct (clampUint16_range z) as (r & -> & Hr).
    rewrite clampUint16_Int.
    destruct (r <? 0)%Z eqn:Hneg; [apply Z.ltb_lt in Hneg; lia |].
    destruct (r >? 65535)%Z eqn:Hbig; [| reflexivity].
    pose proof (Zgt_cases r 65535) as C. rewrite Hbig in C. lia. }
  split; [reflexivity |]. split; [reflexivity |].
  split.
  - destruct v as [| [|] | z']; try discriminate; try reflexivity.
    rewrite clampUint16_Int. discriminate.
  - now intros ->.
Qed.

Section EntropyFurther.

Context {platform : Platform}.

(** X9. The provenance flag.  After a draw [isQuantum] is [true] exactly
    when the remote source is enabled and the remote path succeeded; the
    flag left by an earlier draw plays no part, and a flagged draw is the
    clamped remote value. *)
Theorem isQuantum_exactly_remote (w : World) (this other : RNG) :
  (isQuantum (snd (getUint16 w this)) = true <->
   SHOULD_USE_QRNG w = true /\ exists v, remote_success w v) /\
  getUint16 w this = getUint16 w other /\
  (isQuantum (snd (getUint16 w this)) = true ->
   exists v, remote_success w v /\ fst (getUint16 w this) = clampUint16 v).
Proof.
  assert (H : isQuantum (snd (getUint16 w this)) = true ->
              SHOULD_USE_QRNG w = true /\
              exists v, remote_success w v /\
                        fst (getUint16 w this) = clampUint16 v).
  { destruct (SHOULD_USE_QRNG w) eqn:Hq.
    - destruct (remote_draw_cases w) as [Hf | (v & Hv)].
      + rewrite getUint16_fallback by auto. discriminate.
      + rewrite (getUint16_remote w this v Hq Hv). eauto.
    - rewrite getUint16_fallback by auto. discriminate. }
  split; [split |].
  - intros Hq. destruct (H Hq) as (? & v & ? & _). eauto.
  - intros (Hq & v & Hv). now rewrite (getUint16_remote w this v Hq Hv).
  - split; [reflexivity |]. intros Hq. now destruct (H Hq).
Qed.

(** X10. The distribution of the crash multiplier.  A larger draw never
    gives a larger crash multiplier, and for a level [m] between 0
    (excluded) and [MAX_MULTIPLIER] the crash multiplier of the draw [R] is
    at least [m] exactly when [(R + 1) * m <= (1 - h) * 65536]: of the 65536
    draws, those that let the round reach [m] are the first
    [(1 - h) * 65536 / m], rounded down. *)
Theorem crash_multiplier_distribution
        (w1 w2 : World) (this : RNG) (r1 r2 : Z) (m : R) :
  fst (getUint16 w1 this) = Int r1 -> fst (getUint16 w2 this) = Int r2 ->
  (0 <= r1 <= r2)%Z -> 0 < m <= MAX_MULTIPLIER ->
  exists c1 c2,
    fst (getCrashMultiplier w1 this) = Some c1 /\
    fst (getCrashMultiplier w2 this) = Some c2 /\
    c2 <= c1 /\
    (m <= c1 <-> (IZR r1 + 1) * m <= (1 - HOUSE_EDGE) * 65536).
Proof.
  intros H1 H2 Hr Hm.
  rewrite (getCrashMultiplier_draw w1 this r1 H1).
  rewrite (getCrashMultiplier_draw w2 this r2 H2). simpl.
  do 2 eexists. do 2 (split; [reflexivity |]).
  rewrite !draw_threshold_formula by lia.
  assert (Hx1 : 0 < IZR r1 + 1).
  { assert (H : (0 <= r1)%Z) by lia. apply IZR_le in H. lra. }
  assert (Hx12 : IZR r1 + 1 <= IZR r2 + 1).
  { assert (H : (r1 <= r2)%Z) by lia. apply IZR_le in H. lra. }
  assert (Hq : forall x y, 0 < x -> (y <= 61603.84 / x <-> x * y <= 61603.84)).
  { intros x y Hx. split; intros H.
    - apply Rnot_lt_le. intros C.
      assert (C' : 61603.84 < y * x) by lra.
      apply (Rdiv_lt_iff 61603.84 y x Hx) in C'. lra.
    - apply Rnot_lt_le. intros C.
      apply (Rdiv_lt_iff 61603.84 y x Hx) in C. lra. }
  split.
  - apply Rmin_glb; [apply Rmin_l |].
    eapply Rle_trans; [apply Rmin_r |].
    apply Hq; [assumption |].
    assert (Hq2 : (IZR r2 + 1) * (61603.84 / (IZR r2 + 1)) = 61603.84)
      by (field; lra).
    assert (0 < 61603.84 / (IZR r2 + 1)) by (apply Rdiv_lt_0_compat; lra).
    nra.
  - constants. split; intros H.
    + assert (H' : m <= 61603.84 / (IZR r1 + 1))
        by (eapply Rle_trans; [exact H | apply Rmin_r]).
      apply Hq in H'; [lra | assumption].
    + apply Rmin_glb; [lra |]. apply Hq; [assumption | lra].
Qed.

End EntropyFurther.

Lemma crash_multiplier_distribution_witness :
  exists c1 c2,
    fst (getCrashMultiplier (platform := Browser.platform)
           (offline 100) (mkRNG false)) = Some c1 /\
    fst (getCrashMultiplier (platform := Browser.platform)
           (offline 200) (mkRNG false)) = Some c2 /\
    c2 <= c1.
Proof.
  assert (H1 : fst (getUint16 (platform := Browser.platform)
                      (offline 100) (mkRNG false)) = Int 100) by reflexivity.
  assert (H2 : fst (getUint16 (platform := Browser.platform)
                      (offline 200) (mkRNG false)) = Int 200) by reflexivity.
  assert (Hr : (0 <= 100 <= 200)%Z) by lia.
  assert (Hm : 0 < 2 <= MAX_MULTIPLIER) by (constants; lra).
  destruct (crash_multiplier_distribution (platform := Browser.platform)
              (offline 100) (offline 200) (mkRNG false) 100 200 2 H1 H2 Hr Hm)
    as (c1 & c2 & Hc1 & Hc2 & Hle & _).
  exists c1, c2. auto.
Defined.

Lemma clampUint16_cases_witness :
  clampUint16 (Int 70000) = Int 4464 /\ clampUint16 (Int 65535) = Int 65535.
Proof.
  destruct (clampUint16_cases NaN 70000) as (H1 & _).
  destruct (clampUint16_cases NaN 65535) as (_ & H2 & _).
  rewrite H1, H2 by lia. split; reflexivity.
Defined.

Lemma isQuantum_exactly_remote_witness :
  exists v,
    remote_success (platform := Browser.platform)
      (answering (mkField None None (Some "NzAwMDA="%string) None) 7) v /\
    fst (getUint16 (platform := Browser.platform)
           (answering (mkField None None (Some "NzAwMDA="%string) None) 7)
           (mkRNG false))
    = clampUint16 v.
Proof.
  destruct (isQuantum_exactly_remote (platform := Browser.platform)
              (answering (mkField None None (Some "NzAwMDA="%string) None) 7)
              (mkRNG false) (mkRNG true)) as (_ & _ & H).
  apply H. reflexivity.
Defined.

(** * Properties of the effects *)

(** ** [clamp] and [lerp] *)

Lemma clamp_inside (v lo hi : R) : lo <= v <= hi -> clamp v lo hi = v.
Proof.
  intros [H1 H2]. unfold clamp.
  rewrite (Rmin_right hi v) by assumption. now apply Rmax_right.
Qed.

Lemma clamp_below (v lo hi : R) : v <= lo -> clamp v lo hi = lo.
Proof.
  intros H. unfold clamp. apply Rmax_left.
  eapply Rle_trans; [apply Rmin_r | assumption].
Qed.

Lemma clamp_above (v lo hi : R) : lo <= hi -> hi <= v -> clamp v lo hi = hi.
Proof.
  intros H1 H2. unfold clamp.
  rewrite (Rmin_left hi v) by assumption. now apply Rmax_right.
Qed.

Lemma clamp_range (v lo hi : R) : lo <= hi -> lo <= clamp v lo hi <= hi.
Proof.
  intros H. unfold clamp. split; [apply Rmax_l |].
  apply Rmax_lub; [assumption | apply Rmin_l].
Qed.

(** X11. [clamp].  With bounds in order the result lies between them; it is
    the value itself when the value is between the bounds, the lower bound
    for a value below and the upper bound for a value above, so clamping
    twice is clamping once.  With the bounds the wrong way round the result
    is the lower bound, whatever the value. *)
Theorem clamp_cases (v lo hi : R) :
  (lo <= hi -> lo <= clamp v lo hi <= hi) /\
  (lo <= v <= hi -> clamp v lo hi = v) /\
  (v <= lo -> clamp v lo hi = lo) /\
  (lo <= hi -> hi <= v -> clamp v lo hi = hi) /\
  (lo <= hi -> clamp (clamp v lo hi) lo hi = clamp v lo hi) /\
  (hi < lo -> clamp v lo hi = lo).
Proof.
  split; [apply clamp_range |].
  split; [apply clamp_inside |].
  split; [apply clamp_below |].
  split; [apply clamp_above |].
  split.
  - intros H. apply clamp_inside. now apply clamp_range.
  - intros H. unfold clamp. apply Rmax_left.
    eapply Rle_trans; [apply Rmin_l | lra].
Qed.

Lemma clamp_cases_witness :
  clamp 7 0 1 = 1 /\ clamp 0.25 0 1 = 0.25 /\ clamp 7 1 0 = 1.
Proof.
  destruct (clamp_cases 7 0 1) as (_ & _ & _ & H1 & _).
  destruct (clamp_cases 0.25 0 1) as (_ & H2 & _).
  destruct (clamp_cases 7 1 0) as (_ & _ & _ & _ & _ & H3).
  repeat split; [apply H1 | apply H2 | apply H3]; lra.
Defined.

(** ** [FlashPulse] *)

Lemma flash_update_done (dt : R) (p : FlashPulse.pulse) :
  FlashPulse.duration p <= 0 ->
  FlashPulse.update dt p
  = FlashPulse.mkPulse 0 (FlashPulse.duration p) (FlashPulse.elapsed p)
                       (FlashPulse.maxAlpha p).
Proof.
  intros H. unfold FlashPulse.update.
  destruct (Rle_dec (FlashPulse.duration p) 0); [reflexivity | contradiction].
Qed.

Lemma flash_update_fading (dt : R) (p : FlashPulse.pulse) :
  0 < FlashPulse.duration p ->
  0 <= FlashPulse.elapsed p + dt < FlashPulse.duration p ->
  FlashPulse.update dt p
  = FlashPulse.mkPulse
      (FlashPulse.maxAlpha p
       * (1 - (FlashPulse.elapsed p + dt) / FlashPulse.duration p))
      (FlashPulse.duration p) (FlashPulse.elapsed p + dt)
      (FlashPulse.maxAlpha p).
Proof.
  intros Hd [H0 H1]. unfold FlashPulse.update.
  destruct (Rle_dec (FlashPulse.duration p) 0); [lra |].
  set (q := (FlashPulse.elapsed p + dt) / FlashPulse.duration p).
  assert (Hq : 0 <= q < 1).
  { unfold q. split.
    - apply Rmult_le_pos; [assumption |]. left. now apply Rinv_0_lt_compat.
    - apply (Rdiv_lt_iff _ 1 _ Hd). lra. }
  rewrite (clamp_inside q 0 1) by lra.
  destruct (Rge_dec q 1); [lra | reflexivity].
Qed.

Lemma flash_update_over (dt : R) (p : FlashPulse.pulse) :
  0 < FlashPulse.duration p ->
  FlashPulse.duration p <= FlashPulse.elapsed p + dt ->
  FlashPulse.update dt p
  = FlashPulse.mkPulse 0 0 (FlashPulse.elapsed p + dt) (FlashPulse.maxAlpha p).
Proof.
  intros Hd H1. unfold FlashPulse.update.
  destruct (Rle_dec (FlashPulse.duration p) 0); [lra |].
  set (q := (FlashPulse.elapsed p + dt) / FlashPulse.duration p).
  assert (Hq : 1 <= q).
  { unfold q. apply Rnot_lt_le. intros C.
    apply (Rdiv_lt_iff _ 1 _ Hd) in C. lra. }
  rewrite (clamp_above q 0 1) by lra.
  destruct (Rge_dec 1 1); [reflexivity | lra].
Qed.

Lemma flash_frames_done (dts : list R) (p : FlashPulse.pulse) :
  FlashPulse.duration p <= 0 -> FlashPulse.alpha p = 0 ->
  FlashPulse.alpha (FlashPulse.frames dts p) = 0.
Proof.
  revert p. induction dts as [| dt dts IH]; intros p Hd Ha; simpl.
  - assumption.
  - apply IH; rewrite flash_update_done by assumption; simpl; auto.
Qed.

Lemma flash_frames_fading (dts : list R) (p : FlashPulse.pulse) :
  0 <= FlashPulse.elapsed p < FlashPulse.duration p ->
  FlashPulse.alpha p
  = FlashPulse.maxAlpha p
    * (1 - FlashPulse.elapsed p / FlashPulse.duration p) ->
  Forall (fun dt => 0 <= dt) dts ->
  FlashPulse.alpha (FlashPulse.frames dts p)
  = if Rlt_dec (FlashPulse.elapsed p + total dts) (FlashPulse.duration p)
    then FlashPulse.maxAlpha p
         * (1 - (FlashPulse.elapsed p + total dts) / FlashPulse.duration p)
    else 0.
Proof.
  intros He Ha Hdts. revert p He Ha.
  induction Hdts as [| dt dts Hdt Hdts IH]; intros p He Ha; simpl.
  - rewrite Rplus_0_r.
    destruct (Rlt_dec (FlashPulse.elapsed p) (FlashPulse.duration p));
      [assumption | lra].
  - pose proof (total_nonneg dts Hdts) as Hpos.
    destruct (Rlt_dec (FlashPulse.elapsed p + dt) (FlashPulse.duration p))
      as [Hlt | Hge].
    + rewrite flash_update_fading by lra.
      rewrite IH; simpl; try lra; try reflexivity.
      replace (FlashPulse.elapsed p + dt + total dts)
        with (FlashPulse.elapsed p + (dt + total dts)) by lra.
      reflexivity.
    + rewrite flash_update_over by lra.
      rewrite flash_frames_done by (simpl; auto; lra).
      destruct (Rlt_dec (FlashPulse.elapsed p + (dt + total dts))
                        (FlashPulse.duration p)); [lra | reflexivity].
Qed.

(** X12. [FlashPulse].  After [trigger(maxAlpha, duration)] with a positive
    duration, frames of non-negative length make the flash fade linearly:
    its alpha is [maxAlpha * (1 - t / duration)] while the total frame time
    [t] is below the duration and 0 from then on, so for a non-negative
    [maxAlpha] it stays between 0 and [maxAlpha].  Triggered with a duration
    that is not positive, the flash is put out by the first frame. *)
Theorem flash_fades (m d : R) (dts : list R) (p : FlashPulse.pulse) (dt : R) :
  Forall (fun dt => 0 <= dt) dts ->
  (0 < d ->
   FlashPulse.alpha (FlashPulse.frames dts (FlashPulse.trigger m d p))
   = if Rlt_dec (total dts) d then m * (1 - total dts / d) else 0) /\
  (0 < d -> 0 <= m ->
   0 <= FlashPulse.alpha (FlashPulse.frames dts (FlashPulse.trigger m d p))
     <= m) /\
  (d <= 0 ->
   FlashPulse.alpha
     (FlashPulse.frames (dt :: dts) (FlashPulse.trigger m d p)) = 0).
Proof.
  intros Hdts.
  assert (H : 0 < d ->
              FlashPulse.alpha
                (FlashPulse.frames dts (FlashPulse.trigger m d p))
              = if Rlt_dec (total dts) d then m * (1 - total dts / d) else 0).
  { intros Hd. rewrite flash_frames_fading; simpl; auto; try lra.
    now rewrite Rplus_0_l. }
  split; [exact H |]. split.
  - intros Hd Hm. rewrite (H Hd).
    pose proof (total_nonneg dts Hdts) as Hpos.
    destruct (Rlt_dec (total dts) d) as [Hlt | Hge]; [| lra].
    assert (Hq : 0 <= total dts / d < 1).
    { split.
      - apply Rmult_le_pos; [assumption |]. left. now apply Rinv_0_lt_compat.
      - apply (Rdiv_lt_iff _ 1 _ Hd). lra. }
    nra.
  - intros Hd. simpl.
    apply flash_frames_done; rewrite flash_update_done by (simpl; lra);
      simpl; auto.
Qed.

Lemma flash_fades_witness :
  FlashPulse.alpha
    (FlashPulse.frames [0.05; 0.05] (FlashPulse.trigger 0.8 0.2 FlashPulse.new))
  = 0.4.
Proof.
  assert (Hdts : Forall (fun dt => 0 <= dt) [0.05; 0.05])
    by (repeat constructor; lra).
  destruct (flash_fades 0.8 0.2 [0.05; 0.05] FlashPulse.new 0 Hdts)
    as (H & _).
  rewrite H by lra. simpl.
  destruct (Rlt_dec (0.05 + (0.05 + 0)) 0.2); lra.
Defined.

(** ** [ScreenShake] *)

Lemma shake_update_still (dt rnd : R) (s : ScreenShake.shake) :
  ScreenShake.timeLeft s <= 0 ->
  ScreenShake.update dt rnd s
  = ScreenShake.mkShake 0 0 (ScreenShake.timeLeft s) (ScreenShake.duration s)
                        (ScreenShake.amplitude s).
Proof.
  intros H. unfold ScreenShake.update.
  destruct (Rle_dec (ScreenShake.timeLeft s) 0); [reflexivity | contradiction].
Qed.

Lemma shake_update_moving (dt rnd : R) (s : ScreenShake.shake) :
  0 < ScreenShake.timeLeft s ->
  ScreenShake.update dt rnd s
  = let strength :=
      ScreenShake.amplitude s
      * clamp ((ScreenShake.timeLeft s - dt) / ScreenShake.duration s) 0 1 in
    ScreenShake.mkShake (cos (rnd * PI * 2) * strength)
                        (sin (rnd * PI * 2) * strength)
                        (ScreenShake.timeLeft s - dt) (ScreenShake.duration s)
                        (ScreenShake.amplitude s).
Proof.
  intros H. unfold ScreenShake.update.
  destruct (Rle_dec (ScreenShake.timeLeft s) 0); [lra | reflexivity].
Qed.

Lemma div_nonpos (x d : R) : x <= 0 -> 0 < d -> x / d <= 0.
Proof.
  intros Hx Hd. apply Rnot_lt_le. intros C.
  apply (Rdiv_gt_iff x 0 d Hd) in C. lra.
Qed.

Lemma circle (a x : R) : cos a * x * (cos a * x) + sin a * x * (sin a * x) = x * x.
Proof.
  pose proof (sin2_cos2 a) as H. unfold Rsqr in H.
  replace (cos a * x * (cos a * x) + sin a * x * (sin a * x))
    with ((sin a * sin a + cos a * cos a) * (x * x)) by ring.
  rewrite H. ring.
Qed.

Lemma shake_frames_still (fs : list (R * R)) (s : ScreenShake.shake) :
  ScreenShake.timeLeft s <= 0 ->
  ScreenShake.offsetX s = 0 -> ScreenShake.offsetY s = 0 ->
  ScreenShake.offsetX (ScreenShake.frames fs s) = 0 /\
  ScreenShake.offsetY (ScreenShake.frames fs s) = 0.
Proof.
  revert s. induction fs as [| f fs IH]; intros s Ht Hx Hy; simpl.
  - auto.
  - apply IH; rewrite shake_update_still by assumption; simpl; auto.
Qed.

Lemma shake_frames_strength (fs : list (R * R)) (f : R * R)
      (s : ScreenShake.shake) :
  0 < ScreenShake.timeLeft s <= ScreenShake.duration s ->
  Forall (fun f => 0 <= fst f) (f :: fs) ->
  let s' := ScreenShake.frames (f :: fs) s in
  let strength :=
    ScreenShake.amplitude s
    * clamp ((ScreenShake.timeLeft s - total (map fst (f :: fs)))
             / ScreenShake.duration s) 0 1 in
  ScreenShake.offsetX s' * ScreenShake.offsetX s'
  + ScreenShake.offsetY s' * ScreenShake.offsetY s' = strength * strength.
Proof.
  revert f s. induction fs as [| f' fs IH]; intros f s Ht Hfs.
  - simpl. rewrite shake_update_moving by lra. simpl.
    rewrite Rplus_0_r. apply circle.
  - inversion Hfs as [| ? ? Hf Hfs']; subst.
    assert (Hpos : 0 <= total (map fst (f' :: fs))).
    { apply total_nonneg. apply Forall_map. exact Hfs'. }
    change (ScreenShake.frames (f :: f' :: fs) s)
      with (ScreenShake.frames (f' :: fs)
              (ScreenShake.update (fst f) (snd f) s)).
    destruct (Rle_dec (ScreenShake.timeLeft s - fst f) 0) as [Hle | Hgt].
    + (* the shake is over after this frame *)
      rewrite shake_update_moving by lra. cbv zeta.
      rewrite (clamp_below ((ScreenShake.timeLeft s - fst f)
                            / ScreenShake.duration s) 0 1).
      2:{ apply div_nonpos; lra. }
      destruct (shake_frames_still (f' :: fs)
                  (ScreenShake.mkShake
                     (cos (snd f * PI * 2) * (ScreenShake.amplitude s * 0))
                     (sin (snd f * PI * 2) * (ScreenShake.amplitude s * 0))
                     (ScreenShake.timeLeft s - fst f)
                     (ScreenShake.duration s) (ScreenShake.amplitude s)))
        as [-> ->]; simpl; try assumption; try ring.
      rewrite (clamp_below _ 0 1).
      * ring.
      * apply div_nonpos; [simpl in Hpos; lra | lra].
    + pose proof (IH f' (ScreenShake.update (fst f) (snd f) s)) as IH'.
      rewrite shake_update_moving in IH' by lra. simpl in IH'.
      rewrite shake_update_moving by lra. cbv zeta.
      simpl. rewrite IH'; try assumption; try lra.
      replace (ScreenShake.timeLeft s - fst f - (fst f' + total (map fst fs)))
        with (ScreenShake.timeLeft s - (fst f + (fst f' + total (map fst fs))))
        by ring.
      reflexivity.
Qed.

(** X13. [ScreenShake].  After any call of [update] the offset is inside the
    circle of radius [amplitude]; it is zero when no time is left.  After
    [start(amplitude, duration)] with a positive duration and at least one
    frame (frames of non-negative length), the length of the offset is
    [amplitude * clamp((duration - t) / duration, 0, 1)] for the total frame
    time [t]: it decays linearly and is zero once [t] reaches the
    duration. *)
Theorem shake_decays (a d dt rnd : R) (s : ScreenShake.shake)
        (f : R * R) (fs : list (R * R)) :
  0 < d -> Forall (fun f => 0 <= fst f) (f :: fs) ->
  (let s' := ScreenShake.update dt rnd s in
   ScreenShake.offsetX s' * ScreenShake.offsetX s'
   + ScreenShake.offsetY s' * ScreenShake.offsetY s'
   <= ScreenShake.amplitude s * ScreenShake.amplitude s) /\
  (ScreenShake.timeLeft s <= 0 ->
   ScreenShake.offsetX (ScreenShake.update dt rnd s) = 0 /\
   ScreenShake.offsetY (ScreenShake.update dt rnd s) = 0) /\
  (let s' := ScreenShake.frames (f :: fs) (ScreenShake.start a d s) in
   let strength := a * clamp ((d - total (map fst (f :: fs))) / d) 0 1 in
   ScreenShake.offsetX s' * ScreenShake.offsetX s'
   + ScreenShake.offsetY s' * ScreenShake.offsetY s' = strength * strength /\
   (d <= total (map fst (f :: fs)) ->
    ScreenShake.offsetX s' = 0 /\ ScreenShake.offsetY s' = 0)).
Proof.
  intros Hd Hfs.
  split; [| split].
  - destruct (Rle_dec (ScreenShake.timeLeft s) 0) as [Hle | Hgt].
    + rewrite shake_update_still by assumption. simpl. nra.
    + rewrite shake_update_moving by lra. simpl. rewrite circle.
      set (t := clamp ((ScreenShake.timeLeft s - dt) / ScreenShake.duration s) 0 1).
      assert (Ht : 0 <= t <= 1) by (apply clamp_range; lra).
      set (A := ScreenShake.amplitude s).
      replace (A * t * (A * t)) with ((A * A) * (t * t)) by ring.
      assert (0 <= A * A) by nra. assert (t * t <= 1) by nra. nra.
  - intros Hle. rewrite shake_update_still by assumption. auto.
  - pose proof (shake_frames_strength fs f (ScreenShake.start a d s)) as H.
    simpl in H. cbv zeta.
    assert (Hsq : ScreenShake.offsetX
                    (ScreenShake.frames (f :: fs) (ScreenShake.start a d s))
                  * ScreenShake.offsetX
                      (ScreenShake.frames (f :: fs) (ScreenShake.start a d s))
                  + ScreenShake.offsetY
                      (ScreenShake.frames (f :: fs) (ScreenShake.start a d s))
                    * ScreenShake.offsetY
                        (ScreenShake.frames (f :: fs) (ScreenShake.start a d s))
                  = a * clamp ((d - total (map fst (f :: fs))) / d) 0 1
                    * (a * clamp ((d - total (map fst (f :: fs))) / d) 0 1)).
    { apply H; [lra | assumption]. }
    split; [exact Hsq |].
    intros Hover.
    rewrite (clamp_below _ 0 1) in Hsq.
    2:{ apply div_nonpos; lra. }
    split; nra.
Qed.

Lemma shake_decays_witness :
  ScreenShake.offsetX
    (ScreenShake.frames [(0.3, 0.5); (0.2, 0.1)]
                        (ScreenShake.start 12 0.4 ScreenShake.new)) = 0.
Proof.
  assert (Hd : 0 < 0.4) by lra.
  assert (Hfs : Forall (fun f : R * R => 0 <= fst f) [(0.3, 0.5); (0.2, 0.1)])
    by (repeat constructor; simpl; lra).
  destruct (shake_decays 12 0.4 0 0 ScreenShake.new (0.3, 0.5) [(0.2, 0.1)]
              Hd Hfs) as (_ & _ & _ & H).
  apply H. simpl. lra.
Defined.

(** ** The flight intensity *)

Lemma lerp_between (a b t : R) :
  0 <= t <= 1 -> Rmin a b <= lerp a b t <= Rmax a b.
Proof.
  intros Ht. unfold lerp, Rmin, Rmax.
  destruct (Rle_dec a b); split; nra.
Qed.

(** X14. The flight intensity.  One frame moves it towards its target (1
    while the round runs, 0 otherwise) and leaves
    [exp(-2.4 * dt)] of the distance: it stays between 0 and 1 for frames of
    non-negative length, and two frames in the same state do what one frame
    of their total length does. *)
Theorem flightIntensity_eases (s : GameState) (dt dt' x : R) :
  0 <= dt -> 0 <= x <= 1 ->
  let target := if GameState_eqb s RUNNING then 1 else 0 in
  flightIntensity_update s dt x - target = (x - target) * exp (- (2.4 * dt)) /\
  0 <= flightIntensity_update s dt x <= 1 /\
  flightIntensity_update s dt' (flightIntensity_update s dt x)
  = flightIntensity_update s (dt + dt') x.
Proof.
  intros Hdt Hx target.
  assert (Hform : forall d y,
             flightIntensity_update s d y - target
             = (y - target) * exp (- (2.4 * d))).
  { intros d y. unfold flightIntensity_update, lerp. fold target.
    replace (- d * 2.4) with (- (2.4 * d)) by ring. ring. }
  assert (He : 0 < exp (- (2.4 * dt)) <= 1).
  { split; [apply exp_pos |]. rewrite <- exp_0. apply exp_le. lra. }
  split; [apply Hform |]. split.
  - pose proof (Hform dt x) as H.
    assert (Ht : target = 0 \/ target = 1)
      by (unfold target; destruct (GameState_eqb s RUNNING); auto).
    destruct Ht as [Ht | Ht]; rewrite Ht in H; nra.
  - apply Rplus_eq_reg_r with (- target).
    change (flightIntensity_update s dt' (flightIntensity_update s dt x)
            - target = flightIntensity_update s (dt + dt') x - target).
    rewrite !Hform.
    replace (- (2.4 * (dt + dt'))) with (- (2.4 * dt) + - (2.4 * dt')) by ring.
    rewrite exp_plus. ring.
Qed.

Lemma flightIntensity_eases_witness :
  0 <= flightIntensity_update RUNNING 0.1 0 <= 1.
Proof.
  assert (Hdt : 0 <= 0.1) by lra.
  assert (Hx : 0 <= 0 <= 1) by lra.
  apply (flightIntensity_eases RUNNING 0.1 0 0 Hdt Hx).
Defined.

(** ** The return animation *)

Lemma easeInOut_range (t : R) : 0 <= t <= 1 -> 0 <= easeInOut t <= 1.
Proof.
  intros Ht. unfold easeInOut. destruct (Rlt_dec t 0.5); split; nra.
Qed.

Lemma easeInOut_mono (t1 t2 : R) :
  0 <= t1 <= t2 -> t2 <= 1 -> easeInOut t1 <= easeInOut t2.
Proof.
  intros Ht1 Ht2. unfold easeInOut.
  destruct (Rlt_dec t1 0.5); destruct (Rlt_dec t2 0.5); nra.
Qed.

Lemma easeInOut_ends : easeInOut 0 = 0 /\ easeInOut 1 = 1.
Proof.
  unfold easeInOut. split.
  - destruct (Rlt_dec 0 0.5); lra.
  - destruct (Rlt_dec 1 0.5); lra.
Qed.

Lemma animate_value (from to d start time : R) :
  fst (animate from to d start time)
  = from + (to - from) * easeInOut (Rmin 1 ((time - start) / d)).
Proof.
  unfold animate. fold (easeInOut (Rmin 1 ((time - start) / d))).
  destruct (Rlt_dec (Rmin 1 ((time - start) / d)) 1) as [Hlt | Hge];
    [reflexivity |].
  assert (E : Rmin 1 ((time - start) / d) = 1).
  { apply Rle_antisym; [apply Rmin_l | lra]. }
  rewrite E. destruct easeInOut_ends as [_ ->]. simpl. ring.
Qed.

Lemma progress_range (d start time : R) :
  0 < d -> start <= time -> 0 <= Rmin 1 ((time - start) / d) <= 1.
Proof.
  intros Hd Ht. split; [| apply Rmin_l].
  apply Rmin_glb; [lra |].
  apply Rmult_le_pos; [lra | left; now apply Rinv_0_lt_compat].
Qed.

Lemma progress_mono (d start time1 time2 : R) :
  0 < d -> time1 <= time2 ->
  Rmin 1 ((time1 - start) / d) <= Rmin 1 ((time2 - start) / d).
Proof.
  intros Hd Ht. apply Rmin_glb; [apply Rmin_l |].
  eapply Rle_trans; [apply Rmin_r |].
  unfold Rdiv. apply Rmult_le_compat_r; [| lra].
  left. now apply Rinv_0_lt_compat.
Qed.

(** X15. The return animation.  For a positive duration and frame times from
    the start on, the value written lies between [from] and [to], it is
    [from] at the start, it never moves back towards [from] from one frame
    to a later one, and another frame is requested exactly while the
    duration has not elapsed; from then on the value written is [to]
    itself. *)
Theorem animate_reaches_target (from to d start time time' : R) :
  0 < d -> start <= time <= time' ->
  Rmin from to <= fst (animate from to d start time) <= Rmax from to /\
  fst (animate from to d start start) = from /\
  0 <= (to - from)
       * (fst (animate from to d start time')
          - fst (animate from to d start time)) /\
  (snd (animate from to d start time) = true <-> time < start + d) /\
  (start + d <= time -> animate from to d start time = (to, false)).
Proof.
  intros Hd [Ht Ht'].
  pose proof (progress_range d start time Hd Ht) as Hp.
  pose proof (easeInOut_range _ Hp) as He.
  assert (Hone : (time - start) / d < 1 <-> time < start + d).
  { split; intros H.
    - apply (Rdiv_lt_iff _ 1 _ Hd) in H. lra.
    - apply (Rdiv_lt_iff _ 1 _ Hd). lra. }
  split; [| split; [| split; [| split]]].
  - rewrite animate_value. apply (lerp_between from to _ He).
  - rewrite animate_value.
    replace ((start - start) / d) with 0 by (unfold Rdiv; ring).
    rewrite Rmin_right by lra. destruct easeInOut_ends as [-> _]. ring.
  - rewrite !animate_value.
    assert (Hm : easeInOut (Rmin 1 ((time - start) / d))
                 <= easeInOut (Rmin 1 ((time' - start) / d))).
    { apply easeInOut_mono.
      - split; [apply Hp | now apply progress_mono].
      - apply Rmin_l. }
    set (e1 := easeInOut (Rmin 1 ((time - start) / d))) in *.
    set (e2 := easeInOut (Rmin 1 ((time' - start) / d))) in *.
    replace ((to - from) * (from + (to - from) * e2 - (from + (to - from) * e1)))
      with ((to - from) * (to - from) * (e2 - e1)) by ring.
    apply Rmult_le_pos; [apply (Rle_0_sqr (to - from)) | lra].
  - unfold animate.
    destruct (Rlt_dec (Rmin 1 ((time - start) / d)) 1) as [Hlt | Hge]; simpl.
    + split; [intros _ | reflexivity]. apply Hone.
      unfold Rmin in Hlt. destruct (Rle_dec 1 ((time - start) / d)); lra.
    + split; [discriminate | intros H]. exfalso. apply Hge.
      apply Hone in H. rewrite Rmin_right; lra.
  - intros Hover. unfold animate.
    destruct (Rlt_dec (Rmin 1 ((time - start) / d)) 1) as [Hlt | Hge];
      [| reflexivity].
    exfalso. unfold Rmin in Hlt.
    destruct (Rle_dec 1 ((time - start) / d)); [lra |].
    apply Hone in Hlt. lra.
Qed.

Lemma animate_reaches_target_witness :
  animate 10 20 900 0 900 = (20, false).
Proof.
  assert (Hd : 0 < 900) by lra.
  assert (Ht : 0 <= 900 <= 900) by lra.
  destruct (animate_reaches_target 10 20 900 0 900 900 Hd Ht)
    as (_ & _ & _ & _ & H).
  apply H. lra.
Defined.

(** ** The sound envelope *)

(** X16. The envelope of the synthesised sounds.  For positive attack and
    release times the envelope is between 0 and 1; it is 0 at time 0 and
    before, and at the end of the sound and after; it is 1 from the end of
    the attack to the start of the release. *)
Theorem envelope_shape (t duration attack release : R) :
  0 < attack -> 0 < release ->
  0 <= envelope t duration attack release <= 1 /\
  (t <= 0 -> envelope t duration attack release = 0) /\
  (duration <= t -> envelope t duration attack release = 0) /\
  (attack <= t <= duration - release ->
   envelope t duration attack release = 1).
Proof.
  intros Ha Hr. unfold envelope.
  pose proof (clamp_range (t / attack) 0 1) as H1.
  pose proof (clamp_range ((duration - t) / release) 0 1) as H2.
  split; [| split; [| split]].
  - split.
    + apply Rmin_glb; [apply H1 | apply H2]; lra.
    + eapply Rle_trans; [apply Rmin_l | apply H1; lra].
  - intros Ht. rewrite (clamp_below (t / attack) 0 1)
      by (apply div_nonpos; lra).
    apply Rmin_left. apply H2. lra.
  - intros Ht. rewrite (clamp_below ((duration - t) / release) 0 1)
      by (apply div_nonpos; lra).
    apply Rmin_right. apply H1. lra.
  - intros [Ht1 Ht2].
    assert (Hq : forall x y, 0 < y -> y <= x -> 1 <= x / y).
    { intros x y Hy Hxy. apply Rnot_lt_le. intros C.
      apply (Rdiv_lt_iff x 1 y Hy) in C. lra. }
    rewrite (clamp_above (t / attack) 0 1) by (try apply Hq; lra).
    rewrite (clamp_above ((duration - t) / release) 0 1)
      by (try apply Hq; lra).
    apply Rmin_left. lra.
Qed.

Lemma envelope_shape_witness :
  envelope 0.1 0.5 0.03 0.2 = 1.
Proof.
  assert (Ha : 0 < 0.03) by lra.
  assert (Hr : 0 < 0.2) by lra.
  destruct (envelope_shape 0.1 0.5 0.03 0.2 Ha Hr) as (_ & _ & _ & H).
  apply H. lra.
Defined.

(** ** [lerpColor] *)

Lemma Math_round_IZR (n : Z) : Math_round (IZR n) = n.
Proof.
  unfold Math_round. symmetry. apply Int_part_spec. lra.
Qed.

Lemma Math_round_between (a b : Z) (x : R) :
  IZR a <= x <= IZR b -> (a <= Math_round x <= b)%Z.
Proof.
  intros [Ha Hb]. unfold Math_round.
  destruct (base_Int_part (x + 1 / 2)) as [H1 H2].
  set (z := Int_part (x + 1 / 2)) in *.
  split.
  - assert (H : IZR (a - 1) < IZR z) by (rewrite minus_IZR; lra).
    apply lt_IZR in H. lia.
  - assert (H : IZR z < IZR (b + 1)) by (rewrite plus_IZR; lra).
    apply lt_IZR in H. lia.
Qed.

Lemma channel_range (x : Z) : (0 <= Z.land x 255 <= 255)%Z.
Proof.
  change (Z.land x 255) with (Z.land x (Z.ones 8)).
  rewrite Z.land_ones by lia.
  pose proof (Z.mod_pos_bound x (2 ^ 8)). lia.
Qed.

Lemma lor_shiftl_low (hi lo n : Z) :
  (0 <= n)%Z -> (0 <= lo < 2 ^ n)%Z ->
  Z.lor (Z.shiftl hi n) lo = (hi * 2 ^ n + lo)%Z.
Proof.
  intros Hn Hlo.
  assert (Hland : Z.land (Z.shiftl hi n) lo = 0%Z).
  { apply Z.bits_inj'. intros k Hk.
    rewrite Z.land_spec, Z.bits_0.
    destruct (Z_lt_le_dec k n) as [Hlt | Hge].
    - now rewrite Z.shiftl_spec_low.
    - replace lo with (lo mod 2 ^ n)%Z by (apply Z.mod_small; lia).
      rewrite Z.mod_pow2_bits_high by lia. apply andb_false_r. }
  pose proof (Z.add_lor_land (Z.shiftl hi n) lo) as H.
  rewrite Hland, Z.add_0_r in H. rewrite H.
  now rewrite Z.shiftl_mul_pow2.
Qed.

Lemma compose_channels (r g b : Z) :
  (0 <= r <= 255)%Z -> (0 <= g <= 255)%Z -> (0 <= b <= 255)%Z ->
  Z.lor (Z.lor (Z.shiftl r 16) (Z.shiftl g 8)) b
  = (r * 65536 + g * 256 + b)%Z.
Proof.
  intros Hr Hg Hb.
  rewrite (Z.shiftl_mul_pow2 g 8) by lia.
  rewrite (lor_shiftl_low r (g * 2 ^ 8) 16) by lia.
  replace (r * 2 ^ 16 + g * 2 ^ 8)%Z with (Z.shiftl (r * 256 + g) 8)
    by (rewrite Z.shiftl_mul_pow2 by lia; lia).
  rewrite lor_shiftl_low by lia. lia.
Qed.

Lemma split_channels (x : Z) :
  (0 <= x < 2 ^ 24)%Z ->
  (Z.land (Z.shiftr x 16) 255 * 65536 + Z.land (Z.shiftr x 8) 255 * 256
   + Z.land x 255 = x)%Z.
Proof.
  intros Hx. change 255%Z with (Z.ones 8).
  rewrite !Z.land_ones, !Z.shiftr_div_pow2 by lia.
  change (2 ^ 16)%Z with 65536%Z. change (2 ^ 8)%Z with 256%Z.
  change (2 ^ 24)%Z with 16777216%Z in Hx.
  Z.div_mod_to_equations. lia.
Qed.

Lemma lerp_ends (a b : R) : lerp a b 0 = a /\ lerp a b 1 = b.
Proof. unfold lerp. split; ring. Qed.

(** X17. [lerpColor] on 24-bit colours.  The result is a 24-bit colour; it is
    [from] for every [t <= 0] and [to] for every [t >= 1]; mixing a colour
    with itself gives the colour back. *)
Theorem lerpColor_ends (from to : Z) (t : R) :
  (0 <= from < 2 ^ 24)%Z -> (0 <= to < 2 ^ 24)%Z ->
  (0 <= lerpColor from to t < 2 ^ 24)%Z /\
  (t <= 0 -> lerpColor from to t = from) /\
  (1 <= t -> lerpColor from to t = to) /\
  lerpColor from from t = from.
Proof.
  intros Hf Ht.
  pose proof (clamp_range t 0 1) as Hc.
  assert (Hmix : forall a b : Z,
             (0 <= a <= 255)%Z -> (0 <= b <= 255)%Z ->
             (0 <= Math_round (lerp (IZR a) (IZR b) (clamp t 0 1)) <= 255)%Z).
  { intros a b Ha Hb. apply Math_round_between.
    pose proof (lerp_between (IZR a) (IZR b) (clamp t 0 1)) as H.
    assert (0 <= IZR a <= 255) by (split; apply IZR_le; lia).
    assert (0 <= IZR b <= 255) by (split; apply IZR_le; lia).
    unfold Rmin, Rmax in H.
    destruct (Rle_dec (IZR a) (IZR b)); lra. }
  split; [| split; [| split]].
  - unfold lerpColor.
    rewrite compose_channels by (apply Hmix; apply channel_range).
    pose proof (Hmix _ _ (channel_range (Z.shiftr from 16))
                    (channel_range (Z.shiftr to 16))).
    pose proof (Hmix _ _ (channel_range (Z.shiftr from 8))
                    (channel_range (Z.shiftr to 8))).
    pose proof (Hmix _ _ (channel_range from) (channel_range to)).
    lia.
  - intros H0. unfold lerpColor. rewrite (clamp_below t 0 1) by assumption.
    rewrite !(proj1 (lerp_ends _ _)), !Math_round_IZR.
    rewrite compose_channels by apply channel_range.
    now apply split_channels.
  - intros H1. unfold lerpColor. rewrite (clamp_above t 0 1) by lra.
    rewrite !(proj2 (lerp_ends _ _)), !Math_round_IZR.
    rewrite compose_channels by apply channel_range.
    now apply split_channels.
  - unfold lerpColor.
    assert (Hsame : forall a, lerp a a (clamp t 0 1) = a)
      by (intros a; unfold lerp; ring).
    rewrite !Hsame, !Math_round_IZR.
    rewrite compose_channels by apply channel_range.
    now apply split_channels.
Qed.

Lemma lerpColor_ends_witness :
  lerpColor 8376063 16748469 0 = 8376063%Z.
Proof.
  assert (Hf : (0 <= 8376063 < 2 ^ 24)%Z) by lia.
  assert (Ht : (0 <= 16748469 < 2 ^ 24)%Z) by lia.
  destruct (lerpColor_ends 8376063 16748469 0 Hf Ht) as (_ & H & _).
  apply H. lra.
Defined.

(** ** The particle pool *)

Module ParticleFacts.

Import ParticleSystem.

Lemma pop_none {A : Type} (l : list A) : pop l = None <-> l = [].
Proof.
  destruct l as [| a rest]; simpl; [tauto |].
  destruct (pop rest) as [[z front] |]; split; discriminate.
Qed.

Lemma pop_some {A : Type} (l front : list A) (z : A) :
  pop l = Some (z, front) -> l = front ++ [z].
Proof.
  revert front z. induction l as [| a rest IH]; intros front z; simpl.
  - discriminate.
  - destruct (pop rest) as [[z' front'] |] eqn:E.
    + intros [= <- <-]. simpl. f_equal. now apply IH.
    + intros [= <- <-]. apply pop_none in E. now subst.
Qed.

Lemma set_nth_app {A : Type} (D rest : list A) (u a : A) :
  set_nth (List.length D) a (D ++ u :: rest) = D ++ a :: rest.
Proof. induction D as [| d D IH]; simpl; [reflexivity | now rewrite IH]. Qed.

Lemma nth_error_app_head {A : Type} (D U : list A) :
  nth_error (D ++ U) (List.length D) = hd_error U.
Proof.
  induction D as [| d D IH]; simpl; [now destruct U | assumption].
Qed.

Lemma last_app_cons {A : Type} (D rest : list A) (u d : A) :
  last (D ++ u :: rest) d = last (u :: rest) d.
Proof.
  assert (H : forall (l : list A) (a : A), l <> [] -> last (a :: l) d = last l d)
    by (intros [| b l] a Hl; [congruence | reflexivity]).
  induction D as [| a D IH]; [reflexivity |].
  change ((a :: D) ++ u :: rest) with (a :: (D ++ u :: rest)).
  rewrite H; [assumption |]. now destruct D.
Qed.

(** What is left to visit after the particle at the index has been
    removed: the last item has taken its place. *)
Lemma swap_remove_perm {A : Type} (u d : A) (rest : list A) :
  Permutation (removelast (last (u :: rest) d :: rest)) rest /\
  List.length (removelast (last (u :: rest) d :: rest)) = List.length rest.
Proof.
  destruct rest as [| r rest']; [simpl; auto |].
  destruct (@exists_last _ (r :: rest')) as [front [z E]]; [discriminate |].
  rewrite E. clear E.
  assert (L : last (u :: front ++ [z]) d = z).
  { change (u :: front ++ [z]) with ((u :: front) ++ [z]). apply last_last. }
  rewrite L.
  change (z :: front ++ [z]) with ((z :: front) ++ [z]).
  rewrite removelast_last. split.
  - apply Permutation_cons_append.
  - rewrite length_app. simpl. lia.
Qed.

Lemma Permutation_filter_keep {A : Type} (f : A -> bool) (l l' : list A) :
  Permutation l l' -> Permutation (filter f l) (filter f l').
Proof.
  induction 1 as [| a l l' H IH | a b l | l l' l'' H1 IH1 H2 IH2]; simpl.
  - constructor.
  - destruct (f a); [now constructor | assumption].
  - destruct (f a), (f b); try reflexivity. apply perm_swap.
  - now transitivity (filter f l').
Qed.

Lemma loop_spec (dt : R) (fuel : nat) (D U pool : list Particle) :
  (List.length U <= fuel)%nat ->
  Permutation
    (snd (update_loop fuel dt (List.length D) pool (D ++ U)))
    (D ++ map (fun p => moved dt (aged dt p))
              (filter (fun p => negb (expires dt p)) U)) /\
  Permutation
    (fst (update_loop fuel dt (List.length D) pool (D ++ U)))
    (pool ++ map (fun p => hide (aged dt p)) (filter (expires dt) U)).
Proof.
  revert D U pool. induction fuel as [| fuel IH]; intros D U pool Hlen.
  - destruct U; [| simpl in Hlen; lia]. simpl. rewrite !app_nil_r. auto.
  - simpl. rewrite nth_error_app_head.
    destruct U as [| u rest]; simpl.
    + rewrite !app_nil_r. auto.
    + assert (E : expires dt u
                  = if Rge_dec (age u + dt) (life u) then true else false)
        by reflexivity.
      rewrite E. clear E.
      destruct (Rge_dec (age u + dt) (life u)) as [Hx | Ha]; simpl.
      * rewrite set_nth_app, last_app_cons.
        rewrite removelast_app by discriminate.
        destruct (swap_remove_perm u (aged dt u) rest) as [Hp Hl].
        set (U' := removelast (last (u :: rest) (aged dt u) :: rest)) in *.
        destruct (IH D U' (pool ++ [hide (aged dt u)])) as [H1 H2];
          [simpl in Hlen; lia |].
        split.
        -- rewrite H1. apply Permutation_app_head, Permutation_map.
           now apply Permutation_filter_keep.
        -- rewrite H2, <- app_assoc. simpl.
           apply Permutation_app_head. constructor. apply Permutation_map.
           now apply Permutation_filter_keep.
      * rewrite set_nth_app.
        replace (S (List.length D))
          with (List.length (D ++ [moved dt (aged dt u)]))
          by (rewrite length_app; simpl; lia).
        replace (D ++ moved dt (aged dt u) :: rest)
          with ((D ++ [moved dt (aged dt u)]) ++ rest)
          by (now rewrite <- app_assoc).
        destruct (IH (D ++ [moved dt (aged dt u)]) rest pool) as [H1 H2];
          [simpl in Hlen; lia |].
        split; [| exact H2].
        rewrite H1, <- app_assoc. reflexivity.
Qed.

Lemma loop_fuel (dt : R) (f1 f2 : nat) (D U pool : list Particle) :
  (List.length U <= f1)%nat -> (List.length U <= f2)%nat ->
  update_loop f1 dt (List.length D) pool (D ++ U)
  = update_loop f2 dt (List.length D) pool (D ++ U).
Proof.
  revert f2 D U pool. induction f1 as [| f1 IH]; intros f2 D U pool H1 H2.
  - destruct U; [| simpl in H1; lia]. simpl.
    destruct f2; simpl; [reflexivity |].
    now rewrite nth_error_app_head.
  - destruct f2 as [| f2].
    + destruct U; [| simpl in H2; lia]. simpl.
      now rewrite nth_error_app_head.
    + simpl. rewrite nth_error_app_head.
      destruct U as [| u rest]; simpl; [reflexivity |].
      destruct (Rge_dec (age u + dt) (life u)) as [Hx | Ha].
      * rewrite set_nth_app, last_app_cons.
        rewrite removelast_app by discriminate.
        destruct (swap_remove_perm u (aged dt u) rest) as [_ Hl].
        apply IH; simpl in *; lia.
      * rewrite set_nth_app.
        replace (S (List.length D))
          with (List.length (D ++ [moved dt (aged dt u)]))
          by (rewrite length_app; simpl; lia).
        replace (D ++ moved dt (aged dt u) :: rest)
          with ((D ++ [moved dt (aged dt u)]) ++ rest)
          by (now rewrite <- app_assoc).
        apply IH; simpl in *; lia.
Qed.

Lemma update_unfold (dt : R) (this : system) :
  update dt this
  = mkSystem
      (fst (update_loop (List.length (active this)) dt 0
                        (pool this) (active this)))
      (snd (update_loop (List.length (active this)) dt 0
                        (pool this) (active this))).
Proof.
  unfold update.
  now destruct (update_loop (List.length (active this)) dt 0 (pool this)
                            (active this)).
Qed.

Lemma update_permutes (dt : R) (this : system) :
  Permutation (active (update dt this))
              (map (fun p => moved dt (aged dt p))
                   (filter (fun p => negb (expires dt p)) (active this))) /\
  Permutation (pool (update dt this))
              (pool this
               ++ map (fun p => hide (aged dt p))
                      (filter (expires dt) (active this))).
Proof.
  destruct (loop_spec dt (List.length (active this)) [] (active this)
                      (pool this) (le_n _)) as [H1 H2].
  simpl in H1, H2. rewrite update_unfold. simpl. now split.
Qed.

(** X18. What [update] does to the arrays.  After [update(dt)] the active
    particles are, in some order, those whose age after the frame is below
    their life, each one aged and moved; the others have gone to the end of
    the pool, hidden; every active particle is younger than its life.  The
    loop needs no more turns than the array is long. *)
Theorem update_keeps_the_living (dt : R) (this : system) (n : nat) :
  Permutation (active (update dt this))
              (map (fun p => moved dt (aged dt p))
                   (filter (fun p => negb (expires dt p)) (active this))) /\
  Permutation (pool (update dt this))
              (pool this
               ++ map (fun p => hide (aged dt p))
                      (filter (expires dt) (active this))) /\
  Forall (fun p => age p < life p) (active (update dt this)) /\
  ((List.length (active this) <= n)%nat ->
   update_loop n dt 0 (pool this) (active this)
   = (pool (update dt this), active (update dt this))).
Proof.
  destruct (update_permutes dt this) as [H1 H2].
  split; [exact H1 |]. split; [exact H2 |]. split.
  - apply (Permutation_Forall (Permutation_sym H1)).
    apply Forall_map, Forall_forall. intros p Hp.
    apply filter_In in Hp. destruct Hp as [_ Hp]. simpl.
    unfold expires in Hp.
    destruct (Rge_dec (age p + dt) (life p)); [discriminate | lra].
  - intros Hn.
    pose proof (loop_fuel dt n (List.length (active this)) [] (active this)
                          (pool this) Hn (le_n _)) as F.
    simpl in F. rewrite F, update_unfold. simpl.
    now destruct (update_loop (List.length (active this)) dt 0 (pool this)
                              (active this)).
Qed.

Lemma update_keeps_the_living_witness :
  update_loop 5 1 0 [] [aged 0 blank]
  = (pool (update 1 (mkSystem [] [aged 0 blank])),
     active (update 1 (mkSystem [] [aged 0 blank]))).
Proof.
  destruct (update_keeps_the_living 1 (mkSystem [] [aged 0 blank]) 5)
    as (_ & _ & _ & H).
  apply H. simpl. lia.
Defined.

Lemma filter_split_length {A : Type} (f : A -> bool) (l : list A) :
  (List.length (filter f l) + List.length (filter (fun a => negb (f a)) l)
   = List.length l)%nat.
Proof.
  induction l as [| a l IH]; simpl; [reflexivity |].
  destruct (f a); simpl; lia.
Qed.

(** X19. The pool.  In every system that [spawn], [update] and [clear] make
    of a new one of size [max], the pooled and the active particles are
    [max] together, so that no more than [max] are ever active; every pooled
    sprite is invisible with alpha 0 and every active one is visible; and a
    [spawn] that finds the pool empty changes nothing. *)
Theorem pool_is_conserved (max : nat) (this : system)
        (x y vx vy ax ay life : R) (tint : Z)
        (s1 s2 e1 e2 a1 a2 rot rs : R) :
  reachable max this ->
  (List.length (pool this) + List.length (active this) = max)%nat /\
  (List.length (active this) <= max)%nat /\
  Forall hidden (pool this) /\
  Forall (fun p => visible (sprite p) = true) (active this) /\
  (pool this = [] ->
   spawn x y vx vy ax ay life tint s1 s2 e1 e2 a1 a2 rot rs this = this).
Proof.
  intros Hr.
  assert (H : (List.length (pool this) + List.length (active this) = max)%nat /\
              Forall hidden (pool this) /\
              Forall (fun p => visible (sprite p) = true) (active this)).
  { clear x y vx vy ax ay life tint s1 s2 e1 e2 a1 a2 rot rs.
    induction Hr as [| x y vx vy ax ay life tint s1 s2 e1 e2 a1 a2 rot rs
                       this Hr (IHl & IHp & IHa)
                     | dt this Hr (IHl & IHp & IHa)
                     | this Hr (IHl & IHp & IHa)].
    - simpl. rewrite repeat_length. repeat split; [lia | | constructor].
      apply Forall_forall. intros p Hp. apply repeat_spec in Hp. now subst.
    - unfold spawn. destruct (pop (pool this)) as [[z rest] |] eqn:E.
      + apply pop_some in E. rewrite E in IHl, IHp. simpl.
        rewrite !length_app in *. simpl in *.
        apply Forall_app in IHp. destruct IHp as [IHp _].
        repeat split; [lia | assumption |].
        apply Forall_app. split; [assumption | now constructor].
      + auto.
    - destruct (update_permutes dt this) as (H1 & H2).
      repeat split.
      + rewrite (Permutation_length H1), (Permutation_length H2).
        rewrite length_app, !length_map.
        pose proof (filter_split_length (expires dt) (active this)). lia.
      + apply (Permutation_Forall (Permutation_sym H2)).
        apply Forall_app. split; [assumption |].
        apply Forall_map, Forall_forall. intros p _. now split.
      + apply (Permutation_Forall (Permutation_sym H1)).
        apply Forall_map, Forall_forall. intros p Hp.
        apply filter_In in Hp. destruct Hp as [Hp _]. simpl.
        rewrite Forall_forall in IHa. now apply IHa.
    - simpl. rewrite length_app, length_map. repeat split; [lia | | constructor].
      apply Forall_app. split; [assumption |].
      apply Forall_map, Forall_forall. intros p _. now split. }
  destruct H as (Hl & Hp & Ha).
  repeat split; auto; [lia |].
  intros E. unfold spawn. now rewrite E.
Qed.

Lemma pool_is_conserved_witness :
  (List.length (active (update 1 (spawn 0 0 0 0 0 0 2 0 1 1 1 1 1 0 0 0 (new 3))))
   <= 3)%nat.
Proof.
  apply (pool_is_conserved 3 _ 0 0 0 0 0 0 0 0 0 0 0 0 0 0 0 0).
  apply reach_update, reach_spawn, reach_new.
Defined.

End ParticleFacts.

(** ** The sound bank *)

(** X20. The engine sound.  As long as the duck level is between 0.55 and 1
    (it starts at 1 and [play] ducks to 0.55), a call of [updateEngine] for
    a frame of at most a third of a second keeps it there and never lets the
    duck timer go negative; the rate it sets is between 0.9 and 1.35,
    whatever the multiplier, and the volume between 0 and
    [0.22 * flightIntensity].  [play] keeps the duck level in the same
    range; while the bank is locked neither call does anything. *)
Theorem engine_sound_bounds (m x dt : R) (name : SoundBank.sound)
        (b : SoundBank.bank) :
  0 <= dt <= 1 / 3 -> 0 <= x <= 1 ->
  0.55 <= SoundBank.duckLevel b <= 1 -> 0 <= SoundBank.duckTimer b ->
  0.55 <= SoundBank.duckLevel (fst (SoundBank.updateEngine m x dt b)) <= 1 /\
  0 <= SoundBank.duckTimer (fst (SoundBank.updateEngine m x dt b)) /\
  (forall rate volume,
      snd (SoundBank.updateEngine m x dt b) = Some (rate, volume) ->
      0.9 <= rate <= 1.35 /\ 0 <= volume <= 0.22 * x) /\
  0.55 <= SoundBank.duckLevel (fst (SoundBank.play name b)) <= 1 /\
  0 <= SoundBank.duckTimer (fst (SoundBank.play name b)) /\
  (SoundBank.unlocked b = false ->
   SoundBank.updateEngine m x dt b = (b, None) /\
   SoundBank.play name b = (b, None)).
Proof.
  intros Hdt Hx Hl Ht.
  assert (Hrate : 0.9 <= lerp 0.9 1.35 (clamp ((m - 1) / 9) 0 1) <= 1.35).
  { pose proof (clamp_range ((m - 1) / 9) 0 1) as Hc.
    unfold lerp. split; nra. }
  split; [| split; [| split; [| split; [| split]]]].
  - unfold SoundBank.updateEngine.
    destruct (negb (SoundBank.unlocked b) || _); [assumption |].
    destruct (Rgt_dec (SoundBank.duckTimer b) 0); simpl; [assumption |].
    unfold lerp. split; nra.
  - unfold SoundBank.updateEngine.
    destruct (negb (SoundBank.unlocked b) || _); [assumption |].
    destruct (Rgt_dec (SoundBank.duckTimer b) 0); simpl;
      [apply Rmax_l | assumption].
  - intros rate volume. unfold SoundBank.updateEngine.
    destruct (negb (SoundBank.unlocked b) || _); [discriminate |].
    destruct (Rgt_dec (SoundBank.duckTimer b) 0); simpl;
      intros [= <- <-]; (split; [exact Hrate |]).
    + split; nra.
    + unfold lerp.
      assert (0.55 <= SoundBank.duckLevel b
                      + (1 - SoundBank.duckLevel b) * (dt * 3) <= 1)
        by (split; nra).
      split; nra.
  - unfold SoundBank.play.
    destruct (negb (SoundBank.unlocked b)); [assumption |].
    destruct name; simpl; try assumption;
      (split; [apply Rmin_glb; lra |
               eapply Rle_trans; [apply Rmin_l | lra]]).
  - unfold SoundBank.play.
    destruct (negb (SoundBank.unlocked b)); [assumption |].
    destruct name; simpl; try assumption;
      (eapply Rle_trans; [exact Ht | apply Rmax_l]).
  - intros Hu. unfold SoundBank.updateEngine, SoundBank.play.
    rewrite Hu. simpl. split; reflexivity.
Qed.

Lemma engine_sound_bounds_witness :
  0.55 <= SoundBank.duckLevel
            (fst (SoundBank.play SoundBank.crash
                    (SoundBank.mkBank true (Some 1%Z) 0 1))) <= 1.
Proof.
  assert (Hdt : 0 <= 0.1 <= 1 / 3) by lra.
  assert (Hx : 0 <= 1 <= 1) by lra.
  assert (Hl : 0.55 <= SoundBank.duckLevel (SoundBank.mkBank true (Some 1%Z) 0 1) <= 1)
    by (simpl; lra).
  assert (Ht : 0 <= SoundBank.duckTimer (SoundBank.mkBank true (Some 1%Z) 0 1))
    by (simpl; lra).
  apply (engine_sound_bounds 2 1 0.1 SoundBank.crash _ Hdt Hx Hl Ht).
Defined.

(** ** The WAV encoder *)

Lemma Int_part_le (x y : R) : x <= y -> (Int_part x <= Int_part y)%Z.
Proof.
  intros H.
  destruct (base_Int_part x) as [H1 _], (base_Int_part y) as [_ H2].
  assert (L : IZR (Int_part x) < IZR (Int_part y + 1))
    by (rewrite plus_IZR; lra).
  apply lt_IZR in L. lia.
Qed.

Lemma Int_part_0 : Int_part 0 = 0%Z.
Proof. symmetry. apply Int_part_spec. lra. Qed.

Lemma truncate_le (x y : R) : x <= y -> (truncate x <= truncate y)%Z.
Proof.
  intros H. unfold truncate.
  destruct (Rle_dec 0 x), (Rle_dec 0 y); try lra.
  - now apply Int_part_le.
  - assert (Int_part 0 <= Int_part (- x))%Z by (apply Int_part_le; lra).
    assert (Int_part 0 <= Int_part y)%Z by (now apply Int_part_le).
    rewrite Int_part_0 in *. lia.
  - assert (Int_part (- y) <= Int_part (- x))%Z by (apply Int_part_le; lra).
    lia.
Qed.

Lemma truncate_IZR (z : Z) : truncate (IZR z) = z.
Proof.
  unfold truncate. destruct (Rle_dec 0 (IZR z)).
  - symmetry. apply Int_part_spec. lra.
  - rewrite <- opp_IZR. rewrite <- (Int_part_spec (IZR (- z)) (- z)%Z); [lia | lra].
Qed.

Module WavFacts.
Import Wav.

Lemma write_nothing (buffer : list Z) : write 0 [] buffer = buffer.
Proof. now destruct buffer. Qed.

Lemma write_at_end (done data : list Z) (k : nat) :
  write (List.length done) data
        (done ++ repeat 0%Z (List.length data + k))
  = done ++ data ++ repeat 0%Z k.
Proof.
  induction done as [| b done IH]; simpl.
  - induction data as [| d data IH]; simpl.
    + apply write_nothing.
    + now rewrite IH.
  - now rewrite IH.
Qed.

Lemma writeSamples_at_end (samples : list R) :
  forall done : list Z,
    writeSamples (List.length done) samples
                 (done ++ repeat 0%Z (List.length samples * 2))
    = done ++ flat_map (fun sample => le16 (quantize sample)) samples.
Proof.
  induction samples as [| sample rest IH]; intros done.
  - simpl. reflexivity.
  - cbn [writeSamples List.length Nat.mul Nat.add flat_map].
    unfold setInt16, setUint16.
    change (S (S (List.length rest * 2)))
      with (List.length (le16 (quantize sample)) + List.length rest * 2)%nat.
    fold (quantize sample).
    rewrite write_at_end.
    replace (List.length done + 2)%nat
      with (List.length (done ++ le16 (quantize sample)))
      by (rewrite length_app; reflexivity).
    rewrite app_assoc, IH. now rewrite <- app_assoc.
Qed.

(** The buffer is the 44 bytes of the header and then two bytes for every
    sample. *)
Lemma wavBuffer_bytes (samples : list R) (sampleRate : Z) :
  wavBuffer samples sampleRate
  = ([82; 73; 70; 70]%Z
       ++ le32 (36 + Z.of_nat (List.length samples) * 2)
       ++ [87; 65; 86; 69; 102; 109; 116; 32]%Z
       ++ le32 16 ++ le16 1 ++ le16 1
       ++ le32 sampleRate ++ le32 (sampleRate * 2)
       ++ le16 2 ++ le16 16
       ++ [100; 97; 116; 97]%Z
       ++ le32 (Z.of_nat (List.length samples) * 2))
      ++ flat_map (fun sample => le16 (quantize sample)) samples.
Proof.
  rewrite <- writeSamples_at_end. unfold wavBuffer.
  cbn [writeString setUint8 setUint16 setUint32 write repeat Nat.add le16 le32 app List.length].
  rewrite !write_nothing. reflexivity.
Qed.

Lemma le32_read (v : Z) :
  (0 <= v < 2 ^ 32)%Z ->
  (v mod 256 + 256 * ((v / 256) mod 256) + 65536 * ((v / 65536) mod 256)
   + 16777216 * ((v / 16777216) mod 256) = v)%Z.
Proof.
  intros H. change (2 ^ 32)%Z with 4294967296%Z in H.
  Z.div_mod_to_equations. lia.
Qed.

Lemma le16_read_signed (v : Z) :
  (-32768 <= v <= 32767)%Z ->
  (let u := v mod 256 + 256 * ((v / 256) mod 256) in
   if u <? 32768 then u else u - 65536)%Z = v.
Proof.
  intros H. cbv zeta.
  destruct (Z.ltb_spec (v mod 256 + 256 * ((v / 256) mod 256)) 32768);
    Z.div_mod_to_equations; lia.
Qed.

Lemma byte_range (v : Z) : (0 <= v mod 256 <= 255)%Z.
Proof. pose proof (Z.mod_pos_bound v 256). lia. Qed.

(** The value written for a sample, before [setInt16] cuts it. *)
Lemma scaled_le (s t : R) :
  s <= t ->
  (if Rlt_dec s 0 then s * 32768 else s * 32767)
  <= (if Rlt_dec t 0 then t * 32768 else t * 32767).
Proof. intros H. destruct (Rlt_dec s 0), (Rlt_dec t 0); lra. Qed.

Lemma clamp_le (v w lo hi : R) : v <= w -> clamp v lo hi <= clamp w lo hi.
Proof.
  intros H. unfold clamp.
  apply Rle_max_compat_l, Rle_min_compat_l, H.
Qed.

Lemma quantize_le (s t : R) : s <= t -> (quantize s <= quantize t)%Z.
Proof.
  intros H. unfold quantize. apply truncate_le, scaled_le.
  now apply clamp_le.
Qed.

Lemma quantize_low (s : R) : s <= -1 -> quantize s = (-32768)%Z.
Proof.
  intros H. unfold quantize. rewrite clamp_below by assumption.
  destruct (Rlt_dec (-1) 0); [| lra].
  replace (-1 * 32768) with (IZR (-32768)) by (simpl; lra).
  apply truncate_IZR.
Qed.

Lemma quantize_high (s : R) : 1 <= s -> quantize s = 32767%Z.
Proof.
  intros H. unfold quantize. rewrite clamp_above by lra.
  destruct (Rlt_dec 1 0); [lra |].
  replace (1 * 32767) with (IZR 32767) by (simpl; lra).
  apply truncate_IZR.
Qed.

Lemma quantize_range (s : R) : (-32768 <= quantize s <= 32767)%Z.
Proof.
  destruct (Rle_dec s (-1)) as [L | L].
  - rewrite quantize_low by assumption. lia.
  - pose proof (quantize_le (-1) s ltac:(lra)) as H1.
    rewrite (quantize_low (-1)) in H1 by lra.
    destruct (Rle_dec 1 s) as [U | U].
    + rewrite quantize_high by assumption. lia.
    + pose proof (quantize_le s 1 ltac:(lra)) as H2.
      rewrite (quantize_high 1) in H2 by lra. lia.
Qed.

Lemma sample_bytes_at (samples : list R) :
  forall (i : nat) (sample : R),
    nth_error samples i = Some sample ->
    nth (2 * i) (flat_map (fun s => le16 (quantize s)) samples) 0%Z
    = (quantize sample mod 256)%Z /\
    nth (2 * i + 1) (flat_map (fun s => le16 (quantize s)) samples) 0%Z
    = ((quantize sample / 256) mod 256)%Z.
Proof.
  induction samples as [| s rest IH]; intros [| i] sample H;
    try discriminate.
  - injection H as <-. now split.
  - simpl in H. replace (2 * S i)%nat with (S (S (2 * i))) by lia.
    apply (IH i sample H).
Qed.

Lemma sample_read (header : list Z) (samples : list R) (i : nat)
      (sample : R) :
  List.length header = 44%nat ->
  nth_error samples i = Some sample ->
  readInt16 (44 + 2 * i)
            (header ++ flat_map (fun s => le16 (quantize s)) samples)
  = quantize sample.
Proof.
  intros L H. destruct (sample_bytes_at samples i sample H) as [B0 B1].
  unfold readInt16, readUint16.
  rewrite <- L, <- Nat.add_assoc, !app_nth2_plus, B0, B1.
  apply le16_read_signed, quantize_range.
Qed.

(** X21. The header of the WAV data.  The buffer is 44 bytes and two for
    every sample, each byte in 0..255; it carries the tags RIFF, WAVE, fmt
    and data at their places, a 16-byte format chunk for PCM (1), one
    channel, two bytes and 16 bits a sample; read back little-endian, the
    RIFF size is the length of the buffer less 8 and the data size the
    length less the 44 bytes of the header (for a buffer below 4 GiB), and
    the byte rate is twice the sample rate. *)
Theorem wav_header (samples : list R) (sampleRate : Z) :
  let buffer := wavBuffer samples sampleRate in
  List.length buffer = (44 + 2 * List.length samples)%nat /\
  Forall (fun b => (0 <= b <= 255)%Z) buffer /\
  readString 0 4 buffer = "RIFF"%string /\
  readString 8 8 buffer = "WAVEfmt "%string /\
  readString 36 4 buffer = "data"%string /\
  readUint32 16 buffer = 16%Z /\
  readUint16 20 buffer = 1%Z /\
  readUint16 22 buffer = 1%Z /\
  readUint16 32 buffer = 2%Z /\
  readUint16 34 buffer = 16%Z /\
  ((Z.of_nat (List.length buffer) < 2 ^ 32)%Z ->
   readUint32 4 buffer = (Z.of_nat (List.length buffer) - 8)%Z /\
   readUint32 40 buffer = (Z.of_nat (List.length buffer) - 44)%Z) /\
  ((0 <= sampleRate)%Z -> (sampleRate * 2 < 2 ^ 32)%Z ->
   readUint32 24 buffer = sampleRate /\
   readUint32 28 buffer = (sampleRate * 2)%Z).
Proof.
  intros buffer.
  assert (L : List.length buffer = (44 + 2 * List.length samples)%nat).
  { unfold buffer. rewrite wavBuffer_bytes, length_app.
    cbn [List.length app le16 le32 Nat.add].
    rewrite (flat_map_constant_length (c := 2%nat)); [lia |].
    reflexivity. }
  split; [exact L |]. rewrite L. unfold buffer. rewrite wavBuffer_bytes.
  split.
  { apply Forall_app. split.
    - unfold le32, le16. cbn [app].
      repeat (constructor; [first [apply byte_range | lia] |]).
      constructor.
    - apply Forall_flat_map, Forall_forall. intros s _.
      unfold le16. repeat (constructor; [apply byte_range |]). constructor. }
  repeat (split; [reflexivity |]).
  split.
  - intros H. unfold readUint32. cbn [nth app le32 le16 Nat.add].
    rewrite !le32_read by lia. lia.
  - intros H0 H1. unfold readUint32. cbn [nth app le32 le16 Nat.add].
    rewrite !le32_read by lia. now split.
Qed.

Lemma wav_header_witness :
  readUint32 4 (wavBuffer [0; 1; -1] SAMPLE_RATE) = 42%Z /\
  readUint32 40 (wavBuffer [0; 1; -1] SAMPLE_RATE) = 6%Z /\
  readUint32 24 (wavBuffer [0; 1; -1] SAMPLE_RATE) = 44100%Z /\
  readUint32 28 (wavBuffer [0; 1; -1] SAMPLE_RATE) = 88200%Z.
Proof.
  destruct (wav_header [0; 1; -1] SAMPLE_RATE)
    as (L & _ & _ & _ & _ & _ & _ & _ & _ & _ & H1 & H2).
  rewrite L in H1. destruct H1 as [H1 H1']; [simpl; lia |].
  destruct H2 as [H2 H2']; [unfold SAMPLE_RATE; lia | unfold SAMPLE_RATE; lia |].
  rewrite H1, H1', H2, H2'. repeat split.
Defined.

(** X22. The samples of the WAV data.  The sample at index [i] is read
    back, as a signed little-endian 16-bit integer at byte [44 + 2 i], as
    its quantized value: the sample clamped to [-1, 1], scaled by 32768
    below zero and by 32767 from zero on, and cut towards zero.  That value
    lies in -32768..32767, without wrapping; it is -32768 for every sample
    at or below -1 and 32767 for every sample at or above 1; it has the sign
    of the sample and is less than 1 away from the scaled sample; and a
    larger sample never gets a smaller value. *)
Theorem wav_samples (samples : list R) (sampleRate : Z) (i : nat)
        (sample other : R) :
  nth_error samples i = Some sample ->
  readInt16 (44 + 2 * i) (wavBuffer samples sampleRate) = quantize sample /\
  (-32768 <= quantize sample <= 32767)%Z /\
  (sample <= -1 -> quantize sample = (-32768)%Z) /\
  (1 <= sample -> quantize sample = 32767%Z) /\
  (0 <= sample <= 1 ->
   IZR (quantize sample) <= sample * 32767 < IZR (quantize sample) + 1) /\
  (-1 <= sample < 0 ->
   IZR (quantize sample) - 1 < sample * 32768 <= IZR (quantize sample)) /\
  (sample <= other -> (quantize sample <= quantize other)%Z).
Proof.
  intros H.
  split; [| split; [apply quantize_range |
            split; [apply quantize_low |
            split; [apply quantize_high |
            split; [| split; [| apply quantize_le]]]]]].
  - rewrite wavBuffer_bytes. now apply sample_read.
  - intros R. unfold quantize. rewrite clamp_inside by lra.
    destruct (Rlt_dec sample 0); [lra |].
    unfold truncate. destruct (Rle_dec 0 (sample * 32767)); [| lra].
    destruct (base_Int_part (sample * 32767)). lra.
  - intros R. unfold quantize. rewrite clamp_inside by lra.
    destruct (Rlt_dec sample 0); [| lra].
    unfold truncate. destruct (Rle_dec 0 (sample * 32768)); [lra |].
    destruct (base_Int_part (- (sample * 32768))).
    rewrite opp_IZR. lra.
Qed.

Lemma wav_samples_witness :
  readInt16 48 (wavBuffer [0; 1; -1] SAMPLE_RATE) = (-32768)%Z.
Proof.
  destruct (wav_samples [0; 1; -1] SAMPLE_RATE 2 (-1) (-1) eq_refl)
    as (H & _ & L & _).
  change 48%nat with (44 + 2 * 2)%nat. rewrite H. apply L. lra.
Defined.

End WavFacts.

(** ** The tones *)

Lemma envelope_unit (t duration attack release : R) :
  0 <= envelope t duration attack release <= 1.
Proof.
  unfold envelope.
  pose proof (clamp_range (t / attack) 0 1 ltac:(lra)).
  pose proof (clamp_range ((duration - t) / release) 0 1 ltac:(lra)).
  apply Rmin_case; assumption.
Qed.

(** A wave within [-b, b], under an envelope and a volume. *)
Lemma shaped_within (wave env volume b : R) :
  - b <= wave <= b -> 0 <= env <= 1 -> 0 <= volume ->
  Rabs (wave * env * volume) <= b * volume.
Proof.
  intros Hw He Hv.
  assert (Hb : 0 <= b) by lra.
  assert (H1 : - b <= wave * env <= b) by nra.
  apply Rabs_le. split.
  - replace (- (b * volume)) with (- b * volume) by ring.
    apply Rmult_le_compat_r; lra.
  - apply Rmult_le_compat_r; lra.
Qed.

Lemma Rabs_within (x b : R) : Rabs x <= b -> - b <= x <= b.
Proof. unfold Rabs. destruct (Rcase_abs x); lra. Qed.

Lemma sin_unit (x : R) : -1 <= sin x <= 1.
Proof. destruct (SIN_bound x). lra. Qed.

Lemma Math_sign_unit (x : R) : -1 <= Math_sign x <= 1.
Proof.
  unfold Math_sign. destruct (Rlt_dec 0 x); [lra |].
  destruct (Rlt_dec x 0); lra.
Qed.

Lemma remainder_range (a b : R) :
  0 <= a -> 0 < b -> 0 <= remainder a b / b < 1.
Proof.
  intros Ha Hb. unfold remainder, truncate.
  assert (Hq : 0 <= a / b).
  { apply Rmult_le_pos; [assumption |].
    apply Rlt_le, Rinv_0_lt_compat, Hb. }
  destruct (Rle_dec 0 (a / b)); [| lra].
  destruct (base_Int_part (a / b)) as [H1 H2].
  replace ((a - b * IZR (Int_part (a / b))) / b)
    with (a / b - IZR (Int_part (a / b))) by (field; lra).
  lra.
Qed.

Lemma mix_within (t : R) (frequencies : list R) :
  forall acc k : R,
    - k <= acc <= k ->
    - (k + INR (List.length frequencies))
    <= fold_left (fun mix freq => mix + sin (2 * PI * freq * t))
                 frequencies acc
    <= k + INR (List.length frequencies).
Proof.
  induction frequencies as [| freq rest IH]; intros acc k H.
  - simpl. lra.
  - cbn [fold_left List.length]. rewrite S_INR.
    pose proof (sin_unit (2 * PI * freq * t)).
    pose proof (IH (acc + sin (2 * PI * freq * t)) (k + 1) ltac:(lra)).
    lra.
Qed.

(** X23. The tones stay within their volume.  At every time from 0 on and
    for a volume that is not negative, the sample of a tone (sine, square,
    or saw of a positive frequency), of a glide, of a chord and of the noise
    (for a draw in [0, 1)) is at most the volume in absolute value, and the
    sample of the engine hum at most one and a half times the volume; so up
    to volume 1 (2/3 for the hum) the clamp of the encoder leaves the sample
    as it is. *)
Theorem tones_within_volume
        (duration volume frequency startFreq endFreq random t : R)
        (type : waveType) (frequencies : list R) :
  0 <= volume -> 0 <= t -> (type = saw -> 0 < frequency) ->
  0 <= random < 1 ->
  let tone := makeTone_sample duration frequency volume type t in
  let glide := makeGlide_sample duration startFreq endFreq volume t in
  let chord := makeChord_sample duration frequencies volume t in
  let noise := makeNoise_sample duration volume random t in
  let hum := makeEngineHum_sample duration volume t in
  Rabs tone <= volume /\ Rabs glide <= volume /\ Rabs chord <= volume /\
  Rabs noise <= volume /\ Rabs hum <= 1.5 * volume /\
  (volume <= 1 ->
   clamp tone (-1) 1 = tone /\ clamp glide (-1) 1 = glide /\
   clamp chord (-1) 1 = chord /\ clamp noise (-1) 1 = noise) /\
  (volume <= 2 / 3 -> clamp hum (-1) 1 = hum).
Proof.
  intros Hv Ht Hf Hr tone glide chord noise hum.
  assert (Htone : Rabs tone <= volume).
  { unfold tone, makeTone_sample.
    rewrite <- (Rmult_1_l volume) at 2.
    apply shaped_within; [| apply envelope_unit | assumption].
    destruct type.
    - replace (- (1)) with (-1) by lra. apply sin_unit.
    - replace (- (1)) with (-1) by lra. apply Math_sign_unit.
    - assert (Hp : 0 < 1 / frequency).
      { apply Rdiv_lt_0_compat; [lra | auto]. }
      pose proof (remainder_range t (1 / frequency) Ht Hp). lra. }
  assert (Hglide : Rabs glide <= volume).
  { unfold glide, makeGlide_sample.
    rewrite <- (Rmult_1_l volume) at 2.
    apply shaped_within; [| apply envelope_unit | assumption].
    replace (- (1)) with (-1) by lra. apply sin_unit. }
  assert (Hchord : Rabs chord <= volume).
  { unfold chord, makeChord_sample.
    rewrite <- (Rmult_1_l volume) at 2.
    apply shaped_within; [| apply envelope_unit | assumption].
    pose proof (mix_within t frequencies 0 0 ltac:(lra)) as Hm.
    rewrite Rplus_0_l in Hm.
    set (mix := fold_left _ frequencies 0) in *.
    set (n := INR (List.length frequencies)) in *.
    assert (Hd : 0 < Rmax 1 n) by (apply Rlt_le_trans with 1; [lra | apply Rmax_l]).
    assert (Hn : n <= Rmax 1 n) by apply Rmax_r.
    split.
    - apply Rmult_le_reg_r with (Rmax 1 n); [assumption |].
      replace (mix / Rmax 1 n * Rmax 1 n) with mix by (field; lra). lra.
    - apply Rmult_le_reg_r with (Rmax 1 n); [assumption |].
      replace (mix / Rmax 1 n * Rmax 1 n) with mix by (field; lra). lra. }
  assert (Hnoise : Rabs noise <= volume).
  { unfold noise, makeNoise_sample.
    rewrite <- (Rmult_1_l volume) at 2.
    apply shaped_within; [lra | apply envelope_unit | assumption]. }
  assert (Hhum : Rabs hum <= 1.5 * volume).
  { unfold hum, makeEngineHum_sample.
    apply shaped_within; [| apply envelope_unit | assumption].
    pose proof (sin_unit (2 * PI * 110 * t)).
    pose proof (sin_unit (2 * PI * 220 * t)). lra. }
  repeat (split; [assumption |]).
  split.
  - intros H1.
    repeat split; apply clamp_inside;
      match goal with
      | |- _ <= ?x <= _ =>
          cut (Rabs x <= 1); [intros C; apply Rabs_within in C; lra | lra]
      end.
  - intros H1. apply clamp_inside.
    cut (Rabs hum <= 1); [intros C; apply Rabs_within in C; lra | lra].
Qed.

Lemma tones_within_volume_witness :
  Rabs (makeEngineHum_sample 0.5 0.2 0.1) <= 1.5 * 0.2 /\
  Rabs (makeTone_sample 0.2 420 0.35 saw 0.1) <= 0.35.
Proof.
  assert (Hv : 0 <= 0.2) by lra.
  assert (Ht : 0 <= 0.1) by lra.
  assert (Hr : 0 <= 0 < 1) by lra.
  split.
  - apply (tones_within_volume 0.5 0.2 420 520 1280 0 0.1 saw [392]
                               Hv Ht ltac:(intros _; lra) Hr).
  - assert (Hv' : 0 <= 0.35) by lra.
    apply (tones_within_volume 0.2 0.35 420 520 1280 0 0.1 saw [392]
                               Hv' Ht ltac:(intros _; lra) Hr).
Defined.


